(** * Quantum Financial System: the ledger core

    A shallow embedding of [src/qfs/blockchain/quantum_blockchain.py]
    (the [Block] dataclass and the [QuantumBlockchain] class) together with
    the properties the specification states about it.

    Python values are embedded as the inductive [pyval]; dictionaries with
    string keys are finite maps, an [int] is a [Z], a [float] a binary64
    primitive float, and a [str] a string of code points below 256.  The
    two library primitives the module calls,
    [hashlib.sha3_256(..).hexdigest()] and the float formatting of
    [json.dumps], are the fields of the class [Primitives].  Methods of
    [QuantumBlockchain] live in a small monad that threads [self], may raise
    a Python exception and may run out of fuel (the mining loop is
    unbounded). *)

From Stdlib Require Import ZArith String Ascii List Floats Lia.
From Stdlib Require Import DecimalString DecimalZ DecimalPos.
From stdpp Require Import base option list gmap strings.

Set Warnings "-register-all".
Local Open Scope Z_scope.

(** ** Python values *)

Inductive pyval : Type :=
  | PNone
  | PBool (b : bool)
  | PInt (z : Z)
  | PFloat (f : float)
  | PStr (s : string)
  | PList (l : list pyval)
  | PTuple (l : list pyval)
  | PDict (d : gmap string pyval).

(** A transaction is a [Dict[str, Any]]. *)
Abbreviation Transaction := (gmap string pyval).

(** ** Exceptions *)

Inductive exn : Type :=
  | ValueError (msg : string)
  | IndexError
  | TypeError
  | OverflowError.

Inductive result (A : Type) : Type :=
  | Ok (a : A)
  | Raise (e : exn).
Arguments Ok {A} a.
Arguments Raise {A} e.

Global Instance result_ret : MRet result := @Ok.
Global Instance result_bind : MBind result := λ A B k r,
  match r with
  | Ok a => k a
  | Raise e => Raise e
  end.

(** ** Strings *)

(** [s.startswith(t)] *)
Definition startswith (s t : string) : bool := String.prefix t s.

(** [c * n] for a one-character string [c]; a count below one gives the
    empty string. *)
Fixpoint str_repeat (c : ascii) (n : nat) : string :=
  match n with
  | O => EmptyString
  | S n' => String c (str_repeat c n')
  end.

Definition str_mul (c : ascii) (n : Z) : string := str_repeat c (Z.to_nat n).

(** Number of leading ["0"] characters of a string. *)
Fixpoint leading_zeros (s : string) : nat :=
  match s with
  | String c s' => if Ascii.eqb c "0" then S (leading_zeros s') else O
  | EmptyString => O
  end.

(** ** Numbers: [int], [bool] and [float] under [+] and [-] *)

Inductive pynum : Type :=
  | NInt (z : Z)
  | NFloat (f : float).

Definition as_number (v : pyval) : option pynum :=
  match v with
  | PBool b => Some (NInt (if b then 1 else 0))
  | PInt z => Some (NInt z)
  | PFloat f => Some (NFloat f)
  | _ => None
  end.

(** [float(z)]: the nearest double, ties to even; an integer that rounds
    past the largest double raises [OverflowError]. *)
Definition float_of_int (z : Z) : result float :=
  let f := SF2Prim (binary_normalize prec emax z 0 false) in
  if PrimFloat.is_infinity f then Raise OverflowError else Ok f.

Definition py_arith (iop : Z → Z → Z) (fop : float → float → float)
    (a b : pyval) : result pyval :=
  match as_number a, as_number b with
  | Some (NInt x), Some (NInt y) => Ok (PInt (iop x y))
  | Some (NInt x), Some (NFloat g) =>
      f ← float_of_int x; Ok (PFloat (fop f g))
  | Some (NFloat f), Some (NInt y) =>
      g ← float_of_int y; Ok (PFloat (fop f g))
  | Some (NFloat f), Some (NFloat g) => Ok (PFloat (fop f g))
  | _, _ => Raise TypeError
  end.

Definition py_add : pyval → pyval → result pyval := py_arith Z.add PrimFloat.add.
Definition py_sub : pyval → pyval → result pyval := py_arith Z.sub PrimFloat.sub.

(** [v == address] for a [str] address: only an equal string is equal. *)
Definition py_eq_str (v : pyval) (address : string) : bool :=
  match v with
  | PStr s => String.eqb s address
  | _ => false
  end.

(** [d.get(k)] and [d.get(k, dflt)] *)
Definition dict_get (d : Transaction) (k : string) : pyval :=
  default PNone (d !! k).
Definition dict_get_default (d : Transaction) (k : string) (dflt : pyval) : pyval :=
  default dflt (d !! k).

(** [k in d] *)
Definition dict_in (k : string) (d : Transaction) : bool :=
  match d !! k with
  | Some _ => true
  | None => false
  end.

(** ** [json.dumps(.., sort_keys=True)] *)

Definition quote_char : ascii := "034".
Definition backslash_char : ascii := "092".

Definition hex_digit (n : N) : ascii :=
  ascii_of_N (if (n <? 10)%N then 48 + n else 87 + n).

(** One character of a string as the encoder writes it with
    [ensure_ascii]: printable ASCII as it is, the short escapes, and
    [\u00xx] for the rest. *)
Definition json_escape_char (c : ascii) : string :=
  let n := N_of_ascii c in
  if Ascii.eqb c quote_char then String backslash_char (String quote_char EmptyString)
  else if Ascii.eqb c backslash_char then String backslash_char (String backslash_char EmptyString)
  else if (n =? 8)%N then String backslash_char "b"
  else if (n =? 9)%N then String backslash_char "t"
  else if (n =? 10)%N then String backslash_char "n"
  else if (n =? 12)%N then String backslash_char "f"
  else if (n =? 13)%N then String backslash_char "r"
  else if ((32 <=? n) && (n <=? 126))%N then String c EmptyString
  else String backslash_char
         (String "u" (String "0" (String "0"
           (String (hex_digit (n / 16)) (String (hex_digit (n mod 16)) EmptyString))))).

Fixpoint json_escape (s : string) : string :=
  match s with
  | EmptyString => EmptyString
  | String c s' => (json_escape_char c ++ json_escape s')%string
  end.

Definition json_str (s : string) : string :=
  String quote_char (json_escape s ++ String quote_char EmptyString)%string.

Definition json_int (z : Z) : string := NilZero.string_of_int (Z.to_int z).

(** Items of an object, kept ordered by key. *)
Fixpoint insert_item (kv : string * string) (l : list (string * string))
    : list (string * string) :=
  match l with
  | [] => [kv]
  | kv' :: l' =>
      if String.leb (fst kv) (fst kv') then kv :: l else kv' :: insert_item kv l'
  end.

Definition sort_items (l : list (string * string)) : list (string * string) :=
  foldr insert_item [] l.

Definition json_item (kv : string * string) : string :=
  (json_str (fst kv) ++ ": " ++ snd kv)%string.

Definition json_key (k : string) : string := (json_str k ++ ": ")%string.

(** Reading a string body back, one escaped character at a time; it serves
    to show that the encoder loses nothing of a string. *)
Definition hex_value (c : ascii) : option N :=
  let n := N_of_ascii c in
  if ((48 <=? n) && (n <=? 57))%N then Some (n - 48)%N
  else if ((97 <=? n) && (n <=? 102))%N then Some (n - 87)%N
  else None.

Definition json_unescape_char (s : string) : option (ascii * string) :=
  match s with
  | EmptyString => None
  | String c r =>
      if Ascii.eqb c quote_char then None
      else if Ascii.eqb c backslash_char then
        match r with
        | String e r' =>
            if Ascii.eqb e quote_char then Some (quote_char, r')
            else if Ascii.eqb e backslash_char then Some (backslash_char, r')
            else if Ascii.eqb e "b" then Some (ascii_of_N 8, r')
            else if Ascii.eqb e "t" then Some (ascii_of_N 9, r')
            else if Ascii.eqb e "n" then Some (ascii_of_N 10, r')
            else if Ascii.eqb e "f" then Some (ascii_of_N 12, r')
            else if Ascii.eqb e "r" then Some (ascii_of_N 13, r')
            else if Ascii.eqb e "u" then
              match r' with
              | String _ (String _ (String h1 (String h2 r''))) =>
                  match hex_value h1, hex_value h2 with
                  | Some x, Some y => Some (ascii_of_N (16 * x + y), r'')
                  | _, _ => None
                  end
              | _ => None
              end
            else None
        | EmptyString => None
        end
      else Some (c, r)
  end.

Fixpoint has_char (c : ascii) (s : string) : bool :=
  match s with
  | EmptyString => false
  | String c' s' => Ascii.eqb c' c || has_char c s'
  end.

(** ** [Block] *)

Record Block : Type := mkBlock {
  index : Z;
  timestamp : float;
  transactions : list Transaction;
  previous_hash : string;
  nonce : Z;
  hash : string
}.

Definition set_nonce (n : Z) (b : Block) : Block :=
  mkBlock (index b) (timestamp b) (transactions b) (previous_hash b) n (hash b).

Definition set_hash (h : string) (b : Block) : Block :=
  mkBlock (index b) (timestamp b) (transactions b) (previous_hash b) (nonce b) h.

(** The dictionary [calculate_hash] serialises. *)
Definition block_data (b : Block) : pyval :=
  PDict (<["index" := PInt (index b)]>
        (<["timestamp" := PFloat (timestamp b)]>
        (<["transactions" := PList (map PDict (transactions b))]>
        (<["previous_hash" := PStr (previous_hash b)]>
        (<["nonce" := PInt (nonce b)]> ∅))))).

(** ** [QuantumBlockchain] and its method monad *)

Record QuantumBlockchain : Type := mkQuantumBlockchain {
  chain : list Block;
  difficulty : Z;
  pending_transactions : list Transaction;
  mining_reward : Z
}.

Definition set_chain (c : list Block) (self : QuantumBlockchain) : QuantumBlockchain :=
  mkQuantumBlockchain c (difficulty self) (pending_transactions self) (mining_reward self).

Definition set_pending_transactions (p : list Transaction) (self : QuantumBlockchain)
    : QuantumBlockchain :=
  mkQuantumBlockchain (chain self) (difficulty self) p (mining_reward self).

(** A method call: from the object before the call to the value returned (or
    the exception raised) and the object after it; [None] when the call is
    still running once the fuel is spent. *)
Definition M (A : Type) : Type :=
  QuantumBlockchain → option (result A * QuantumBlockchain).

Global Instance M_ret : MRet M := λ A a self, Some (Ok a, self).
Global Instance M_bind : MBind M := λ A B k m self,
  match m self with
  | Some (Ok a, self') => k a self'
  | Some (Raise e, self') => Some (Raise e, self')
  | None => None
  end.

Definition m_get : M QuantumBlockchain := λ self, Some (Ok self, self).
Definition m_modify (f : QuantumBlockchain → QuantumBlockchain) : M unit :=
  λ self, Some (Ok tt, f self).
Definition m_raise {A} (e : exn) : M A := λ self, Some (Raise e, self).
Definition m_result {A} (r : result A) : M A := λ self, Some (r, self).
Definition m_option {A} (o : option A) : M A :=
  λ self, match o with Some a => Some (Ok a, self) | None => None end.

(** [l[i]] for a non-negative [i] *)
Definition list_index {A} (l : list A) (i : nat) : result A :=
  match l !! i with
  | Some a => Ok a
  | None => Raise IndexError
  end.

(** The marker transaction of the genesis block. *)
Definition genesis_transaction : Transaction :=
  <["type" := PStr "genesis"]>
  (<["message" := PStr "ScrollSoul Sovereign Treasury Genesis"]> ∅).

(** The reward transaction the pool is reset to after a block is mined. *)
Definition reward_transaction (miner_address : string) (reward : Z) : Transaction :=
  <["from" := PStr "system"]>
  (<["to" := PStr miner_address]>
  (<["amount" := PInt reward]>
  (<["type" := PStr "mining_reward"]> ∅))).

Record ChainInfo : Type := mkChainInfo {
  info_length : nat;
  info_difficulty : Z;
  info_is_valid : bool;
  info_pending_transactions : nat;
  info_latest_index : Z;
  info_latest_hash : string;
  info_latest_timestamp : float
}.

(** The two library primitives the module calls. *)
Class Primitives : Type := {
  (** [hashlib.sha3_256(s.encode()).hexdigest()] *)
  sha3_256_hexdigest : string → string;
  (** [float.__repr__], as the JSON encoder formats a float *)
  float_repr : float → string
}.

Section Model.

Context {primitives : Primitives}.

Fixpoint json_dumps (v : pyval) : string :=
  match v with
  | PNone => "null"
  | PBool true => "true"
  | PBool false => "false"
  | PInt z => json_int z
  | PFloat f => float_repr f
  | PStr s => json_str s
  | PList l | PTuple l =>
      ("[" ++ String.concat ", " (map json_dumps l) ++ "]")%string
  | PDict d =>
      ("{" ++ String.concat ", " (map json_item (sort_items
          (map_fold (λ k x acc, (k, json_dumps x) :: acc) [] d))) ++ "}")%string
  end.

Definition calculate_hash (b : Block) : string :=
  let block_string := json_dumps (block_data b) in
  sha3_256_hexdigest block_string.

(** [__post_init__] *)
Definition post_init (b : Block) : Block :=
  if String.eqb (hash b) EmptyString then set_hash (calculate_hash b) b else b.

(** The dataclass constructor: [hash] is not an argument, it starts as the
    empty string and [__post_init__] fills it. *)
Definition Block_init (index : Z) (timestamp : float)
    (transactions : list Transaction) (previous_hash : string) (nonce : Z) : Block :=
  post_init (mkBlock index timestamp transactions previous_hash nonce EmptyString).

(** One round of the body of the mining loop. *)
Definition mine_step (b : Block) : Block :=
  let b1 := set_nonce (nonce b + 1) b in
  set_hash (calculate_hash b1) b1.

(** [mine_block]: the [while] loop, [None] when the fuel runs out. *)
Fixpoint mine_block (fuel : nat) (difficulty : Z) (b : Block) : option Block :=
  let target := str_mul "0" difficulty in
  if startswith (hash b) target then Some b
  else match fuel with
       | O => None
       | S fuel' => mine_block fuel' difficulty (mine_step b)
       end.


(** ** Methods of [QuantumBlockchain] *)

Definition get_latest_block : M Block :=
  self ← m_get;
  match last (chain self) with
  | Some b => mret b
  | None => m_raise IndexError
  end.

Definition _create_genesis_block (fuel : nat) (now : float) : M unit :=
  self ← m_get;
  let genesis_block := Block_init 0 now [genesis_transaction] "0" 0 in
  genesis_block ← m_option (mine_block fuel (difficulty self) genesis_block);
  m_modify (λ self, set_chain (chain self ++ [genesis_block]) self).

(** [QuantumBlockchain(difficulty)]; [now] is what [time.time()] returns. *)
Definition QuantumBlockchain_init (fuel : nat) (difficulty : Z) (now : float)
    : option QuantumBlockchain :=
  match _create_genesis_block fuel now (mkQuantumBlockchain [] difficulty [] 100) with
  | Some (Ok _, self) => Some self
  | _ => None
  end.

Definition add_transaction (transaction : Transaction) : M unit :=
  if negb (dict_in "from" transaction) || negb (dict_in "to" transaction)
     || negb (dict_in "amount" transaction)
  then m_raise (ValueError "Transaction must contain 'from', 'to', and 'amount' fields")
  else m_modify (λ self,
         set_pending_transactions (pending_transactions self ++ [transaction]) self).

Definition mine_pending_transactions (fuel : nat) (miner_address : string)
    (now : float) : M Block :=
  self ← m_get;
  latest ← get_latest_block;
  let new_block :=
    Block_init (Z.of_nat (length (chain self))) now (pending_transactions self)
      (hash latest) 0 in
  new_block ← m_option (mine_block fuel (difficulty self) new_block);
  _ ← m_modify (λ self, set_chain (chain self ++ [new_block]) self);
  _ ← m_modify (λ self,
        set_pending_transactions
          [reward_transaction miner_address (mining_reward self)] self);
  mret new_block.

(** The body of the inner loop of [get_balance]. *)
Definition balance_transaction (address : string) (balance : pyval)
    (transaction : Transaction) : result pyval :=
  balance ← (if py_eq_str (dict_get transaction "from") address
             then py_sub balance (dict_get_default transaction "amount" (PInt 0))
             else Ok balance);
  if py_eq_str (dict_get transaction "to") address
  then py_add balance (dict_get_default transaction "amount" (PInt 0))
  else Ok balance.

Fixpoint balance_transactions (address : string) (balance : pyval)
    (l : list Transaction) : result pyval :=
  match l with
  | [] => Ok balance
  | transaction :: l' =>
      balance ← balance_transaction address balance transaction;
      balance_transactions address balance l'
  end.

Fixpoint balance_blocks (address : string) (balance : pyval) (c : list Block)
    : result pyval :=
  match c with
  | [] => Ok balance
  | block :: c' =>
      balance ← balance_transactions address balance (transactions block);
      balance_blocks address balance c'
  end.

Definition get_balance (address : string) : M pyval :=
  self ← m_get;
  m_result (balance_blocks address (PInt 0) (chain self)).

(** The loop of [is_chain_valid] over the indices still to visit. *)
Fixpoint is_chain_valid_loop (c : list Block) (difficulty : Z) (range : list nat)
    : result bool :=
  match range with
  | [] => Ok true
  | i :: range' =>
      current_block ← list_index c i;
      previous_block ← list_index c (i - 1);
      if negb (String.eqb (hash current_block) (calculate_hash current_block))
      then Ok false
      else if negb (String.eqb (previous_hash current_block) (hash previous_block))
      then Ok false
      else if negb (startswith (hash current_block) (str_mul "0" difficulty))
      then Ok false
      else is_chain_valid_loop c difficulty range'
  end.

Definition is_chain_valid : M bool :=
  self ← m_get;
  m_result (is_chain_valid_loop (chain self) (difficulty self)
              (seq 1 (length (chain self) - 1))).

Definition get_chain_info : M ChainInfo :=
  self ← m_get;
  valid ← is_chain_valid;
  latest ← get_latest_block;
  mret (mkChainInfo (length (chain self)) (difficulty self) valid
          (length (pending_transactions self))
          (index latest) (hash latest) (timestamp latest)).

(** ** The public interface as a transition system *)

Inductive call : Type :=
  | Call_add_transaction (transaction : Transaction)
  | Call_mine_pending_transactions (miner_address : string) (now : float)
  | Call_get_balance (address : string)
  | Call_is_chain_valid
  | Call_get_latest_block
  | Call_get_chain_info.

Inductive retval : Type :=
  | RNone
  | RBlock (b : Block)
  | RNumber (v : pyval)
  | RBool (b : bool)
  | RInfo (i : ChainInfo).

Definition run (fuel : nat) (c : call) : M retval :=
  match c with
  | Call_add_transaction transaction =>
      _ ← add_transaction transaction; mret RNone
  | Call_mine_pending_transactions miner_address now =>
      b ← mine_pending_transactions fuel miner_address now; mret (RBlock b)
  | Call_get_balance address => v ← get_balance address; mret (RNumber v)
  | Call_is_chain_valid => b ← is_chain_valid; mret (RBool b)
  | Call_get_latest_block => b ← get_latest_block; mret (RBlock b)
  | Call_get_chain_info => i ← get_chain_info; mret (RInfo i)
  end.

(** The objects a program can hold: a constructed ledger, and what any
    completed call leaves of one (a raised exception leaves the object as
    the call left it). *)
Inductive reachable : QuantumBlockchain → Prop :=
  | reachable_init fuel difficulty now self :
      QuantumBlockchain_init fuel difficulty now = Some self →
      reachable self
  | reachable_call fuel c self r self' :
      reachable self →
      run fuel c self = Some (r, self') →
      reachable self'.

(** [self'] is what some sequence of completed calls makes of [self]. *)
Inductive reaches : QuantumBlockchain → QuantumBlockchain → Prop :=
  | reaches_refl self : reaches self self
  | reaches_call fuel c self r self' self'' :
      run fuel c self = Some (r, self') →
      reaches self' self'' →
      reaches self self''.

(** ** Vocabulary of the properties *)

(** The hash a block carries is the digest of its other fields. *)
Definition hash_current (b : Block) : Prop := hash b = calculate_hash b.

(** The digest tells the texts of two blocks apart, where they differ. *)
Definition digest_separates (b b' : Block) : Prop :=
  calculate_hash b = calculate_hash b' →
  json_dumps (block_data b) = json_dumps (block_data b').

(** What mining leaves alone. *)
Definition same_content (b b' : Block) : Prop :=
  index b' = index b ∧ timestamp b' = timestamp b ∧
  transactions b' = transactions b ∧ previous_hash b' = previous_hash b.

(** A required key that the dictionary lacks. *)
Definition missing_field (transaction : Transaction) : Prop :=
  transaction !! "from" = None ∨ transaction !! "to" = None ∨
  transaction !! "amount" = None.

Definition malformed : exn :=
  ValueError "Transaction must contain 'from', 'to', and 'amount' fields".

(** The state a successful [mine_pending_transactions] leaves. *)
Definition mined_state (self : QuantumBlockchain) (miner_address : string)
    (new_block : Block) : QuantumBlockchain :=
  mkQuantumBlockchain (chain self ++ [new_block]) (difficulty self)
    [reward_transaction miner_address (mining_reward self)] (mining_reward self).

(** Indices count from zero and every block names the hash of the one
    before it. *)
Definition chain_indexed (c : list Block) : Prop :=
  ∀ i b, c !! i = Some b → index b = Z.of_nat i.

Definition chain_linked (c : list Block) : Prop :=
  ∀ i current_block previous_block,
    c !! S i = Some current_block → c !! i = Some previous_block →
    previous_hash current_block = hash previous_block.

(** Every block carries a current hash that meets the difficulty. *)
Definition chain_mined (d : Z) (c : list Block) : Prop :=
  ∀ i b, c !! i = Some b →
    hash_current b ∧ d ≤ Z.of_nat (leading_zeros (hash b)).

Record ledger_inv (self : QuantumBlockchain) : Prop := {
  inv_nonempty : chain self ≠ [];
  inv_indexed : chain_indexed (chain self);
  inv_linked : chain_linked (chain self);
  inv_mined : chain_mined (difficulty self) (chain self);
  inv_reward : mining_reward self = 100
}.

(** The three checks on the block at index [i]. *)
Definition block_checks (c : list Block) (d : Z) (i : nat) : Prop :=
  ∃ current_block previous_block,
    c !! i = Some current_block ∧ c !! (i - 1)%nat = Some previous_block ∧
    hash current_block = calculate_hash current_block ∧
    previous_hash current_block = hash previous_block ∧
    d ≤ Z.of_nat (leading_zeros (hash current_block)).

(** The balance as the specification words it: one fold, from zero, over
    the transactions of all blocks in chain order; each step subtracts the
    amount if the sender is the address and then adds it if the receiver
    is. *)
Definition replay_transaction (address : string) (balance : result pyval)
    (transaction : Transaction) : result pyval :=
  let amount := dict_get_default transaction "amount" (PInt 0) in
  balance ← balance;
  balance ← (if py_eq_str (dict_get transaction "from") address
             then py_sub balance amount else Ok balance);
  if py_eq_str (dict_get transaction "to") address
  then py_add balance amount else Ok balance.

Definition replay (address : string) (c : list Block) : result pyval :=
  foldl (replay_transaction address) (Ok (PInt 0)) (concat (map transactions c)).

(** ** Vocabulary of the further properties *)

(** The test [add_transaction] makes of a dictionary. *)
Definition has_required_keys (transaction : Transaction) : bool :=
  dict_in "from" transaction && dict_in "to" transaction &&
  dict_in "amount" transaction.

(** Calls made one after the other, by a caller that goes on after an
    exception; [None] when one of them does not return. *)
Fixpoint run_calls (fuel : nat) (cs : list call) (self : QuantumBlockchain)
    : option QuantumBlockchain :=
  match cs with
  | [] => Some self
  | c :: cs' =>
      match run fuel c self with
      | Some (_, self') => run_calls fuel cs' self'
      | None => None
      end
  end.

(** What [get_balance] reads of a transaction: the amount, whether it is an
    [int] (a [bool] counts as one), and whether the address sends or
    receives. *)
Definition amount_of (transaction : Transaction) : pyval :=
  dict_get_default transaction "amount" (PInt 0).

Definition int_amount (transaction : Transaction) : option Z :=
  match as_number (amount_of transaction) with
  | Some (NInt z) => Some z
  | _ => None
  end.

Definition sends (address : string) (transaction : Transaction) : bool :=
  py_eq_str (dict_get transaction "from") address.

Definition receives (address : string) (transaction : Transaction) : bool :=
  py_eq_str (dict_get transaction "to") address.

(** What a transaction with an integer amount adds to the balance. *)
Definition net_transaction (address : string) (transaction : Transaction) : Z :=
  let amount := default 0 (int_amount transaction) in
  (if receives address transaction then amount else 0) -
  (if sends address transaction then amount else 0).

Definition net_balance (address : string) (c : list Block) : Z :=
  foldr Z.add 0 (map (net_transaction address) (concat (map transactions c))).

(** The transactions of a chain. *)
Definition chain_transactions (c : list Block) : list Transaction :=
  concat (map transactions c).

(** Sender and receiver of a transaction, when they are strings. *)
Definition sender (transaction : Transaction) : option string :=
  match dict_get transaction "from" with
  | PStr s => Some s
  | _ => None
  end.

Definition receiver (transaction : Transaction) : option string :=
  match dict_get transaction "to" with
  | PStr s => Some s
  | _ => None
  end.

(** The transactions of the pool and of the blocks after the first have
    the three keys. *)
Definition keys_inv (self : QuantumBlockchain) : Prop :=
  Forall (λ tx, has_required_keys tx = true) (pending_transactions self) ∧
  ∀ i b, (0 < i)%nat → chain self !! i = Some b →
         Forall (λ tx, has_required_keys tx = true) (transactions b).

End Model.

(** ** A concrete instance, to run the model *)

(** Stand-ins for the two primitives: a 256-bit polynomial checksum written
    as 64 hexadecimal digits, and a float written as its integer mantissa
    and binary exponent.  They serve to evaluate the model on concrete
    ledgers; the properties are proved for every instance. *)
Fixpoint checksum (s : string) (acc : N) : N :=
  match s with
  | EmptyString => acc
  | String c s' => checksum s' (N.land (acc * 1000003 + N_of_ascii c) (N.ones 256))
  end.

Fixpoint hex_digits (n : nat) (v : N) (acc : string) : string :=
  match n with
  | O => acc
  | S n' => hex_digits n' (v / 16)%N (String (hex_digit (v mod 16)%N) acc)
  end.

Definition example_hexdigest (s : string) : string :=
  hex_digits 64 (checksum s 7) EmptyString.

Definition example_float_repr (f : float) : string :=
  match Prim2SF f with
  | S754_zero false => "0.0"
  | S754_zero true => "-0.0"
  | S754_infinity false => "Infinity"
  | S754_infinity true => "-Infinity"
  | S754_nan => "NaN"
  | S754_finite sign m e =>
      ((if sign then "-" else "") ++ json_int (Z.pos m) ++ "p" ++ json_int e)%string
  end.

Definition example_primitives : Primitives :=
  {| sha3_256_hexdigest := example_hexdigest; float_repr := example_float_repr |}.

Definition transfer (sender receiver : string) (amount : pyval) : Transaction :=
  <["from" := PStr sender]> (<["to" := PStr receiver]> (<["amount" := amount]> ∅)).

(** A ledger of difficulty 1 as the constructor leaves it. *)
Definition example_genesis : Block :=
  mkBlock 0 1700000000 [genesis_transaction] "0" 11
    "029a10421a1bb923b34e0b52b690fa67a64a0923cfa6b60d2251b7a037ebf37b".

Definition example_ledger0 : QuantumBlockchain :=
  mkQuantumBlockchain [example_genesis] 1 [] 100.

(** ... after [add_transaction] of alice paying bob 50 ... *)
Definition example_ledger0_pool : QuantumBlockchain :=
  mkQuantumBlockchain [example_genesis] 1 [transfer "alice" "bob" (PInt 50)] 100.

(** ... and after [mine_pending_transactions("miner1")]. *)
Definition example_block1 : Block :=
  mkBlock 1 1700000060 [transfer "alice" "bob" (PInt 50)]
    "029a10421a1bb923b34e0b52b690fa67a64a0923cfa6b60d2251b7a037ebf37b" 7
    "002ef8eb6a1e1f87dbae58a83997e030f0f5321ad622391b32d3524da40a46e1".

Definition example_ledger1 : QuantumBlockchain :=
  mkQuantumBlockchain [example_genesis; example_block1] 1
    [reward_transaction "miner1" 100] 100.

(** The same block with the amount changed after the fact. *)
Definition example_block1_tampered : Block :=
  mkBlock 1 1700000060 [transfer "alice" "bob" (PInt 5000)]
    "029a10421a1bb923b34e0b52b690fa67a64a0923cfa6b60d2251b7a037ebf37b" 7
    "002ef8eb6a1e1f87dbae58a83997e030f0f5321ad622391b32d3524da40a46e1".

(** A ledger with float amounts: carol receives 1.0, and in the next block
    pays herself 1e17. *)
Definition float_block1 : Block :=
  mkBlock 1 1700000060 [transfer "treasury" "carol" (PFloat 1)]
    "029a10421a1bb923b34e0b52b690fa67a64a0923cfa6b60d2251b7a037ebf37b" 1
    "08e286e77c8c25ad3f59a711266c434e23763591dbdf5e3432f41459c784238a".

Definition float_ledger1 : QuantumBlockchain :=
  mkQuantumBlockchain [example_genesis; float_block1] 1
    [reward_transaction "miner1" 100] 100.

Definition float_ledger1_pool : QuantumBlockchain :=
  mkQuantumBlockchain [example_genesis; float_block1] 1
    [reward_transaction "miner1" 100; transfer "carol" "carol" (PFloat 1e17)] 100.

Definition float_block2 : Block :=
  mkBlock 2 1700000120
    [reward_transaction "miner1" 100; transfer "carol" "carol" (PFloat 1e17)]
    "08e286e77c8c25ad3f59a711266c434e23763591dbdf5e3432f41459c784238a" 0
    "010fff1b561fa7a0389995c522ec43f128a888d8c4a301d7a9c1c0ab9295d73a".

Definition float_ledger2 : QuantumBlockchain :=
  mkQuantumBlockchain [example_genesis; float_block1; float_block2] 1
    [reward_transaction "miner1" 100] 100.

(** A ledger whose one transaction carries a tuple, and the block with the
    tuple replaced by the list of the same elements. *)
Definition memo_block1 : Block :=
  mkBlock 1 1700000060
    [<["memo" := PTuple [PStr "rent"; PInt 3]]> (transfer "alice" "bob" (PInt 50))]
    "029a10421a1bb923b34e0b52b690fa67a64a0923cfa6b60d2251b7a037ebf37b" 16
    "06da4562a59eccc7b2b5f7265f6b60540c9bbafe43fcb7676c18f951555b8537".

Definition memo_block1_tampered : Block :=
  mkBlock 1 1700000060
    [<["memo" := PList [PStr "rent"; PInt 3]]> (transfer "alice" "bob" (PInt 50))]
    "029a10421a1bb923b34e0b52b690fa67a64a0923cfa6b60d2251b7a037ebf37b" 16
    "06da4562a59eccc7b2b5f7265f6b60540c9bbafe43fcb7676c18f951555b8537".

Definition memo_ledger : QuantumBlockchain :=
  mkQuantumBlockchain [example_genesis; memo_block1] 1
    [reward_transaction "miner1" 100] 100.

(** A dictionary with the three keys and nothing usable under them. *)
Definition hollow_transaction : Transaction :=
  transfer EmptyString EmptyString (PStr "abc").


(** The block mined next, holding the reward of the first. *)
Definition example_block2 : Block :=
  mkBlock 2 1700000120 [reward_transaction "miner1" 100]
    "002ef8eb6a1e1f87dbae58a83997e030f0f5321ad622391b32d3524da40a46e1" 8
    "03c0e0fc30c73846f1a08bc9934013c477e677da4b59acd3a8b7aaf8739a0610".

Definition example_ledger2 : QuantumBlockchain :=
  mkQuantumBlockchain [example_genesis; example_block1; example_block2] 1
    [reward_transaction "miner1" 100] 100.

(** A ledger in which the hollow transaction was mined. *)
Definition hollow_block1 : Block :=
  mkBlock 1 1700000060 [hollow_transaction]
    "029a10421a1bb923b34e0b52b690fa67a64a0923cfa6b60d2251b7a037ebf37b" 5
    "0b42aee64871b596182fc1a733dca1a8d68d0689f259da15ac3004065cd85cbf".

Definition hollow_ledger : QuantumBlockchain :=
  mkQuantumBlockchain [example_genesis; hollow_block1] 1
    [reward_transaction "miner1" 100] 100.

(** A dictionary without the key from. *)
Definition headless_transaction : Transaction :=
  <["to" := PStr "bob"]> (<["amount" := PInt 5]> ∅).

Section Properties.

Context {primitives : Primitives}.

(** * Properties *)

(** ** Strings and the difficulty target *)

Lemma startswith_zeros (s : string) (n : nat) :
  startswith s (str_repeat "0" n) = true ↔ (n ≤ leading_zeros s)%nat.
Proof.
  unfold startswith. revert s.
  induction n as [|n IH]; intros s.
  - split; [simpl; lia | by destruct s].
  - destruct s as [|c s]; cbn [String.prefix str_repeat leading_zeros].
    + split; [done | lia].
    + destruct (ascii_dec "0" c) as [<-|Hne].
      * rewrite Ascii.eqb_refl, IH. lia.
      * destruct (Ascii.eqb_spec c "0") as [->|_]; [congruence|].
        split; [done | lia].
Qed.

Lemma startswith_target (s : string) (d : Z) :
  startswith s (str_mul "0" d) = true ↔ d ≤ Z.of_nat (leading_zeros s).
Proof. unfold str_mul. rewrite startswith_zeros. lia. Qed.

Lemma leading_zeros_length (s : string) :
  (leading_zeros s ≤ String.length s)%nat.
Proof.
  induction s as [|c s IH]; simpl; [lia|].
  destruct (Ascii.eqb c "0"); lia.
Qed.

(** ** [Block]: hashing and mining *)

Lemma calculate_hash_set_hash (h : string) (b : Block) :
  calculate_hash (set_hash h b) = calculate_hash b.
Proof. reflexivity. Qed.

Lemma Block_init_fields i ts txs ph n :
  Block_init i ts txs ph n =
  mkBlock i ts txs ph n (calculate_hash (mkBlock i ts txs ph n EmptyString)).
Proof. reflexivity. Qed.

Lemma Block_init_hash_current i ts txs ph n :
  hash_current (Block_init i ts txs ph n).
Proof. reflexivity. Qed.

Lemma mine_step_hash_current (b : Block) : hash_current (mine_step b).
Proof. reflexivity. Qed.

Lemma mine_block_unfold (fuel : nat) (d : Z) (b : Block) :
  mine_block fuel d b =
  if startswith (hash b) (str_mul "0" d) then Some b
  else match fuel with
       | O => None
       | S fuel' => mine_block fuel' d (mine_step b)
       end.
Proof. destruct fuel; reflexivity. Qed.

Lemma mine_block_nonpositive (fuel : nat) (d : Z) (b : Block) :
  d ≤ 0 → mine_block fuel d b = Some b.
Proof.
  intros Hd. rewrite mine_block_unfold.
  assert (startswith (hash b) (str_mul "0" d) = true) as ->; [|done].
  apply startswith_target. lia.
Qed.

Lemma mine_block_inv (fuel : nat) (d : Z) (b b' : Block) :
  mine_block fuel d b = Some b' →
  startswith (hash b') (str_mul "0" d) = true ∧
  same_content b b' ∧
  (hash_current b → hash_current b') ∧
  ∃ k, (k ≤ fuel)%nat ∧ b' = Nat.iter k mine_step b.
Proof.
  revert b. induction fuel as [|fuel IH]; intros b; rewrite mine_block_unfold;
    destruct (startswith (hash b) (str_mul "0" d)) eqn:Hs; intros H;
    try discriminate.
  1,2: injection H as <-; repeat split; auto; exists O; split; [lia | reflexivity].
  destruct (IH _ H) as (Hz & (Hi & Ht & Htx & Hp) & Hc & k & Hk & ->).
  repeat split; auto.
  - intros _. apply Hc, mine_step_hash_current.
  - exists (S k). split; [lia|]. by rewrite Nat.iter_succ_r.
Qed.

Lemma mine_block_iter (d : Z) (b : Block) (k : nat) :
  startswith (hash (Nat.iter k mine_step b)) (str_mul "0" d) = true →
  ∃ b', mine_block k d b = Some b'.
Proof.
  revert b. induction k as [|k IH]; intros b H; rewrite mine_block_unfold.
  - simpl in H. rewrite H. eauto.
  - destruct (startswith (hash b) (str_mul "0" d)); [eauto|].
    apply IH. by rewrite <- Nat.iter_succ_r.
Qed.

(** A digest of 64 characters never meets a target of more than 64. *)
Lemma mine_block_target_too_long (fuel : nat) (d : Z) (b : Block) :
  (∀ s, String.length (sha3_256_hexdigest s) = 64%nat) →
  hash_current b → 64 < d →
  mine_block fuel d b = None.
Proof.
  intros Hlen Hb Hd. revert b Hb.
  assert (Hno : ∀ b, hash_current b →
            startswith (hash b) (str_mul "0" d) = false).
  { intros b Hb. apply not_true_is_false. rewrite startswith_target.
    pose proof (leading_zeros_length (hash b)) as Hl.
    assert (String.length (hash b) = 64%nat) as Hl'.
    { unfold hash_current in Hb. rewrite Hb. apply Hlen. }
    lia. }
  induction fuel as [|fuel IH]; intros b Hb; rewrite mine_block_unfold, (Hno b Hb);
    [reflexivity|].
  apply IH, mine_step_hash_current.
Qed.

(** C4: once [mine_block] has returned on a block whose hash was current
    (as the constructor leaves it), the hash has at least [difficulty]
    leading zero characters and is the digest of the stored fields;
    difficulty 0 accepts at once, with no fuel, and returns the block as it
    was. *)
Theorem mine_block_correct (fuel : nat) (d : Z) (b b' : Block) :
  hash_current b →
  mine_block fuel d b = Some b' →
  d ≤ Z.of_nat (leading_zeros (hash b')) ∧
  hash b' = calculate_hash b' ∧
  same_content b b' ∧
  (d = 0 → b' = b ∧ mine_block 0 d b = Some b).
Proof.
  intros Hb Hm. destruct (mine_block_inv _ _ _ _ Hm) as (Hz & Hs & Hc & _).
  split; [by apply startswith_target|].
  split; [by apply Hc|].
  split; [exact Hs|].
  intros ->. rewrite mine_block_nonpositive in Hm by lia.
  split; [congruence | by apply mine_block_nonpositive].
Qed.

(** C9, as the code has it: the loop returns exactly when the hash on
    entry, or the digest at some later nonce, starts with the target; it
    returns at once for a difficulty of zero or less; and with 64-character
    digests no difficulty above 64 is ever met. *)
Theorem mine_block_terminates_iff (d : Z) (b : Block) :
  ((∃ fuel b', mine_block fuel d b = Some b') ↔
   (∃ k, startswith (hash (Nat.iter k mine_step b)) (str_mul "0" d) = true)) ∧
  (d ≤ 0 → mine_block 0 d b = Some b) ∧
  ((∀ s, String.length (sha3_256_hexdigest s) = 64%nat) →
   hash_current b → 64 < d → ∀ fuel, mine_block fuel d b = None).
Proof.
  split; [split|split].
  - intros (fuel & b' & H).
    destruct (mine_block_inv _ _ _ _ H) as (Hz & _ & _ & k & _ & ->). eauto.
  - intros (k & H). exists k. by apply mine_block_iter.
  - apply mine_block_nonpositive.
  - intros Hlen Hb Hd fuel. by apply mine_block_target_too_long.
Qed.

(** ** Methods as equations on [self] *)

Lemma get_latest_block_eq (self : QuantumBlockchain) :
  get_latest_block self =
  Some (match last (chain self) with
        | Some b => Ok b
        | None => Raise IndexError
        end, self).
Proof. unfold get_latest_block, mbind, M_bind, m_get. by destruct (last _). Qed.

Lemma add_transaction_ok (transaction : Transaction) (self : QuantumBlockchain) :
  ¬ missing_field transaction →
  add_transaction transaction self =
  Some (Ok tt, set_pending_transactions
                 (pending_transactions self ++ [transaction]) self).
Proof.
  unfold missing_field, add_transaction, dict_in. intros H.
  destruct (transaction !! "from"); [|tauto].
  destruct (transaction !! "to"); [|tauto].
  destruct (transaction !! "amount"); [|tauto]. reflexivity.
Qed.

Lemma add_transaction_raise (transaction : Transaction) (self : QuantumBlockchain) :
  missing_field transaction →
  add_transaction transaction self = Some (Raise malformed, self).
Proof.
  unfold missing_field, add_transaction, dict_in. intros H.
  destruct (transaction !! "from"), (transaction !! "to"),
    (transaction !! "amount"); try reflexivity.
  destruct H as [H|[H|H]]; discriminate H.
Qed.

Lemma missing_field_dec (transaction : Transaction) :
  missing_field transaction ∨ ¬ missing_field transaction.
Proof.
  unfold missing_field.
  destruct (transaction !! "from"), (transaction !! "to"),
    (transaction !! "amount"); auto; right; intros [H|[H|H]]; discriminate H.
Qed.

Lemma mine_pending_transactions_eq (fuel : nat) (miner_address : string)
    (now : float) (self : QuantumBlockchain) :
  mine_pending_transactions fuel miner_address now self =
  match last (chain self) with
  | None => Some (Raise IndexError, self)
  | Some latest =>
      match mine_block fuel (difficulty self)
              (Block_init (Z.of_nat (length (chain self))) now
                 (pending_transactions self) (hash latest) 0) with
      | Some new_block => Some (Ok new_block, mined_state self miner_address new_block)
      | None => None
      end
  end.
Proof.
  unfold mine_pending_transactions, mbind, M_bind, m_get.
  rewrite get_latest_block_eq. destruct (last (chain self)) as [latest|]; [|done].
  unfold m_option. by destruct (mine_block _ _ _).
Qed.

Lemma create_genesis_block_eq (fuel : nat) (now : float) (self : QuantumBlockchain) :
  _create_genesis_block fuel now self =
  match mine_block fuel (difficulty self)
          (Block_init 0 now [genesis_transaction] "0" 0) with
  | Some genesis_block => Some (Ok tt, set_chain (chain self ++ [genesis_block]) self)
  | None => None
  end.
Proof.
  unfold _create_genesis_block, mbind, M_bind, m_get, m_option.
  by destruct (mine_block _ _ _).
Qed.

Lemma QuantumBlockchain_init_eq (fuel : nat) (d : Z) (now : float) :
  QuantumBlockchain_init fuel d now =
  match mine_block fuel d (Block_init 0 now [genesis_transaction] "0" 0) with
  | Some genesis_block => Some (mkQuantumBlockchain [genesis_block] d [] 100)
  | None => None
  end.
Proof.
  unfold QuantumBlockchain_init. rewrite create_genesis_block_eq. simpl.
  by destruct (mine_block _ _ _).
Qed.

Lemma get_balance_eq (address : string) (self : QuantumBlockchain) :
  get_balance address self =
  Some (balance_blocks address (PInt 0) (chain self), self).
Proof. reflexivity. Qed.

Lemma is_chain_valid_eq (self : QuantumBlockchain) :
  is_chain_valid self =
  Some (is_chain_valid_loop (chain self) (difficulty self)
          (seq 1 (length (chain self) - 1)), self).
Proof. reflexivity. Qed.

(** ** [add_transaction] *)

(** C6: [add_transaction] raises (the [ValueError] the specification calls
    MalformedTransactionError) exactly when one of the keys from, to,
    amount is missing, and then leaves the object as it was; otherwise it
    returns and the pool is the old pool with the dictionary, whatever its
    values, at the end. *)
Theorem add_transaction_spec (transaction : Transaction) (self : QuantumBlockchain) :
  ((∃ e self', add_transaction transaction self = Some (Raise e, self')) ↔
   missing_field transaction) ∧
  (missing_field transaction →
   add_transaction transaction self = Some (Raise malformed, self)) ∧
  (¬ missing_field transaction →
   add_transaction transaction self =
   Some (Ok tt, mkQuantumBlockchain (chain self) (difficulty self)
                  (pending_transactions self ++ [transaction])
                  (mining_reward self))).
Proof.
  split; [split|split].
  - intros (e & self' & H). destruct (missing_field_dec transaction) as [|Hn]; [done|].
    rewrite add_transaction_ok in H by done. discriminate H.
  - intros H. rewrite add_transaction_raise by done. eauto.
  - apply add_transaction_raise.
  - apply add_transaction_ok.
Qed.

(** C7, as the code has it: a dictionary that [add_transaction] accepts
    has the three keys from, to and amount, and that is all the method
    asks: the values under them are not inspected. *)
Theorem add_transaction_accepts_keys (transaction : Transaction)
    (self self' : QuantumBlockchain) :
  add_transaction transaction self = Some (Ok tt, self') →
  is_Some (transaction !! "from") ∧ is_Some (transaction !! "to") ∧
  is_Some (transaction !! "amount") ∧
  ∀ from_value to_value amount_value : pyval,
    add_transaction
      (<["from" := from_value]> (<["to" := to_value]>
        (<["amount" := amount_value]> transaction))) self =
    Some (Ok tt, set_pending_transactions
                   (pending_transactions self ++
                      [<["from" := from_value]> (<["to" := to_value]>
                        (<["amount" := amount_value]> transaction))]) self).
Proof.
  intros H. destruct (missing_field_dec transaction) as [Hm|Hn].
  { rewrite add_transaction_raise in H by done. discriminate H. }
  unfold missing_field in Hn.
  repeat split.
  - destruct (transaction !! "from"); [eauto | tauto].
  - destruct (transaction !! "to"); [eauto | tauto].
  - destruct (transaction !! "amount"); [eauto | tauto].
  - intros. apply add_transaction_ok. unfold missing_field.
    rewrite lookup_insert_eq.
    rewrite lookup_insert_ne, lookup_insert_eq by done.
    rewrite !lookup_insert_ne, lookup_insert_eq by done.
    intros [?|[?|?]]; discriminate.
Qed.

(** ** [mine_pending_transactions] *)

(** C3: on a ledger whose chain has a last block, [mine_pending_transactions]
    returns as soon as the proof-of-work search does; it then has appended
    exactly the mined block, whose index is the old chain length, whose
    previous hash is the old last block's hash and whose transactions are
    the pool as it was at entry, and the pool is now the one reward
    transaction from "system" to the miner, whatever it held before. *)
Theorem mine_pending_transactions_spec (fuel : nat) (miner_address : string)
    (now : float) (self : QuantumBlockchain) (latest : Block) :
  last (chain self) = Some latest →
  let candidate :=
    Block_init (Z.of_nat (length (chain self))) now (pending_transactions self)
      (hash latest) 0 in
  (mine_block fuel (difficulty self) candidate = None →
   mine_pending_transactions fuel miner_address now self = None) ∧
  ∀ new_block,
    mine_block fuel (difficulty self) candidate = Some new_block →
    ∃ self',
      mine_pending_transactions fuel miner_address now self =
        Some (Ok new_block, self') ∧
      chain self' = chain self ++ [new_block] ∧
      index new_block = Z.of_nat (length (chain self)) ∧
      previous_hash new_block = hash latest ∧
      transactions new_block = pending_transactions self ∧
      pending_transactions self' =
        [<["from" := PStr "system"]> (<["to" := PStr miner_address]>
          (<["amount" := PInt (mining_reward self)]>
          (<["type" := PStr "mining_reward"]> ∅)))] ∧
      difficulty self' = difficulty self ∧
      mining_reward self' = mining_reward self.
Proof.
  intros Hlast candidate. split.
  - intros Hm. rewrite mine_pending_transactions_eq, Hlast.
    fold candidate. by rewrite Hm.
  - intros new_block Hm. exists (mined_state self miner_address new_block).
    rewrite mine_pending_transactions_eq, Hlast. fold candidate. rewrite Hm.
    destruct (mine_block_inv _ _ _ _ Hm) as (_ & (Hi & _ & Ht & Hp) & _).
    repeat split; done.
Qed.

(** ** Reachable ledgers *)

Lemma chain_indexed_snoc (c : list Block) (b : Block) :
  chain_indexed c → index b = Z.of_nat (length c) → chain_indexed (c ++ [b]).
Proof.
  intros Hc Hb i b' Hi. destruct (decide (i < length c)%nat) as [Hlt|Hge].
  - rewrite lookup_app_l in Hi by done. by apply Hc.
  - rewrite lookup_app_r in Hi by lia.
    destruct (i - length c)%nat as [|n] eqn:Hn; simpl in Hi; [|done].
    injection Hi as <-. rewrite Hb. f_equal. lia.
Qed.

Lemma chain_linked_snoc (c : list Block) (latest b : Block) :
  chain_linked c → last c = Some latest → previous_hash b = hash latest →
  chain_linked (c ++ [b]).
Proof.
  intros Hc Hl Hb i cur prev Hcur Hprev.
  destruct (decide (S i < length c)%nat) as [Hlt|Hge].
  - rewrite lookup_app_l in Hcur, Hprev by lia. by eapply Hc.
  - rewrite lookup_app_r in Hcur by lia.
    destruct (S i - length c)%nat as [|n] eqn:Hn; simpl in Hcur; [|done].
    injection Hcur as <-.
    assert (length c = S i) as Hlen by lia.
    rewrite lookup_app_l in Hprev by lia.
    rewrite last_lookup, Hlen in Hl. simpl in Hl. congruence.
Qed.

Lemma chain_mined_snoc (d : Z) (c : list Block) (b : Block) :
  chain_mined d c → hash_current b → d ≤ Z.of_nat (leading_zeros (hash b)) →
  chain_mined d (c ++ [b]).
Proof.
  intros Hc Hb Hz i b' Hi. destruct (decide (i < length c)%nat) as [Hlt|Hge].
  - rewrite lookup_app_l in Hi by done. exact (Hc _ _ Hi).
  - rewrite lookup_app_r in Hi by lia.
    destruct (i - length c)%nat as [|n]; simpl in Hi; [|done].
    by injection Hi as <-.
Qed.

Lemma QuantumBlockchain_init_inv (fuel : nat) (d : Z) (now : float)
    (self : QuantumBlockchain) :
  QuantumBlockchain_init fuel d now = Some self →
  ∃ genesis_block,
    self = mkQuantumBlockchain [genesis_block] d [] 100 ∧
    mine_block fuel d (Block_init 0 now [genesis_transaction] "0" 0) =
      Some genesis_block ∧
    index genesis_block = 0 ∧ previous_hash genesis_block = "0"%string ∧
    transactions genesis_block = [genesis_transaction] ∧
    hash_current genesis_block ∧
    d ≤ Z.of_nat (leading_zeros (hash genesis_block)).
Proof.
  rewrite QuantumBlockchain_init_eq.
  destruct (mine_block _ _ _) as [g|] eqn:Hm; [|done].
  intros [= <-]. exists g.
  destruct (mine_block_inv _ _ _ _ Hm) as (Hz & (Hi & _ & Ht & Hp) & Hc & _).
  repeat split; try done.
  - by apply Hc, Block_init_hash_current.
  - by apply startswith_target.
Qed.

(** What one call can do to the object. *)
Lemma run_effect (fuel : nat) (c : call) (self self' : QuantumBlockchain)
    (r : result retval) :
  run fuel c self = Some (r, self') →
  self' = self ∨
  (∃ transaction,
     self' = set_pending_transactions
               (pending_transactions self ++ [transaction]) self) ∨
  (∃ miner_address latest new_block,
     last (chain self) = Some latest ∧
     self' = mined_state self miner_address new_block ∧
     index new_block = Z.of_nat (length (chain self)) ∧
     previous_hash new_block = hash latest ∧
     hash_current new_block ∧
     difficulty self ≤ Z.of_nat (leading_zeros (hash new_block))).
Proof.
  destruct c as [transaction|miner_address now|address| | |];
    unfold run, mbind, M_bind.
  - destruct (missing_field_dec transaction) as [Hm|Hm].
    + rewrite add_transaction_raise by done. intros [= <- <-]. by left.
    + rewrite add_transaction_ok by done. intros [= <- <-]. right; left. eauto.
  - rewrite mine_pending_transactions_eq.
    destruct (last (chain self)) as [latest|] eqn:Hl.
    2: { intros [= <- <-]. by left. }
    destruct (mine_block _ _ _) as [nb|] eqn:Hm; [|done].
    intros [= <- <-]. right; right. exists miner_address, latest, nb.
    destruct (mine_block_inv _ _ _ _ Hm) as (Hz & (Hi & _ & Ht & Hp) & Hc & _).
    repeat split; try done.
    + by apply Hc, Block_init_hash_current.
    + by apply startswith_target.
  - rewrite get_balance_eq. destruct (balance_blocks _ _ _); intros [= <- <-]; by left.
  - rewrite is_chain_valid_eq. destruct (is_chain_valid_loop _ _ _);
      intros [= <- <-]; by left.
  - rewrite get_latest_block_eq. destruct (last _); intros [= <- <-]; by left.
  - unfold get_chain_info, mbind, M_bind, m_get.
    rewrite is_chain_valid_eq. destruct (is_chain_valid_loop _ _ _).
    2: { intros [= <- <-]; by left. }
    rewrite get_latest_block_eq. destruct (last _); intros [= <- <-]; by left.
Qed.

Lemma run_ledger_inv (fuel : nat) (c : call) (self self' : QuantumBlockchain)
    (r : result retval) :
  ledger_inv self → run fuel c self = Some (r, self') → ledger_inv self'.
Proof.
  intros [Hne Hi Hl Hm Hr] Hrun.
  destruct (run_effect _ _ _ _ _ Hrun)
    as [->|[(tx & ->)|(miner & latest & nb & Hlast & -> & Hidx & Hprev & Hcur & Hz)]].
  - by constructor.
  - by constructor.
  - constructor; simpl.
    + by destruct (chain self).
    + by apply chain_indexed_snoc.
    + by eapply chain_linked_snoc.
    + by apply chain_mined_snoc.
    + done.
Qed.

Lemma reachable_ledger_inv (self : QuantumBlockchain) :
  reachable self → ledger_inv self.
Proof.
  induction 1 as [fuel d now self Hinit|fuel c self r self' _ IH Hrun].
  - destruct (QuantumBlockchain_init_inv _ _ _ _ Hinit)
      as (g & -> & _ & Hi & Hp & _ & Hc & Hz).
    constructor; simpl; try done.
    + intros [|i] b; [|done]. by intros [= <-].
    + intros [|i] b; [|done]. by intros [= <-].
  - by eapply run_ledger_inv.
Qed.

Lemma reaches_prefix (self self' : QuantumBlockchain) :
  reaches self self' → chain self `prefix_of` chain self'.
Proof.
  induction 1 as [self|fuel c self r self' self'' Hrun _ IH]; [done|].
  etrans; [|exact IH].
  destruct (run_effect _ _ _ _ _ Hrun)
    as [->|[(tx & ->)|(miner & latest & nb & _ & -> & _)]]; simpl.
  - done.
  - done.
  - by apply prefix_app_r.
Qed.

(** C1: on every ledger reached from the constructor by calls of the public
    methods, each block after the first names the hash of the block before
    it and each block's index is its position; and whatever sequence of
    calls follows, the chain it had stays, in order, the beginning of the
    chain it gets. *)
Theorem chain_append_only_linked (self : QuantumBlockchain) :
  reachable self →
  (∀ i current_block previous_block,
     (0 < i)%nat →
     chain self !! i = Some current_block →
     chain self !! (i - 1)%nat = Some previous_block →
     previous_hash current_block = hash previous_block ∧
     index current_block = Z.of_nat i) ∧
  (∀ self', reaches self self' → chain self `prefix_of` chain self').
Proof.
  intros Hr. destruct (reachable_ledger_inv _ Hr) as [_ Hi Hl _ _]. split.
  - intros i cur prev Hpos Hcur Hprev. split; [|by apply Hi].
    destruct i as [|i]; [lia|]. replace (S i - 1)%nat with i in Hprev by lia.
    by eapply Hl.
  - apply reaches_prefix.
Qed.

(** C10: the constructor returns a ledger of exactly one block, the mined
    genesis block with previous hash "0"; every reachable ledger has a
    non-empty chain, and on it [get_latest_block] returns the last block
    without raising and without touching the object. *)
Theorem chain_never_empty :
  (∀ fuel d now self,
     QuantumBlockchain_init fuel d now = Some self →
     length (chain self) = 1%nat ∧
     ∃ genesis_block,
       chain self = [genesis_block] ∧
       previous_hash genesis_block = "0"%string ∧
       index genesis_block = 0 ∧
       hash genesis_block = calculate_hash genesis_block ∧
       d ≤ Z.of_nat (leading_zeros (hash genesis_block))) ∧
  (∀ fuel d now genesis_block,
     mine_block fuel d (Block_init 0 now [genesis_transaction] "0" 0) =
       Some genesis_block →
     QuantumBlockchain_init fuel d now =
       Some (mkQuantumBlockchain [genesis_block] d [] 100)) ∧
  (∀ self,
     reachable self →
     (1 ≤ length (chain self))%nat ∧
     ∃ b, last (chain self) = Some b ∧
          get_latest_block self = Some (Ok b, self)).
Proof.
  split; [|split].
  - intros fuel d now self Hinit.
    destruct (QuantumBlockchain_init_inv _ _ _ _ Hinit)
      as (g & -> & _ & Hi & Hp & _ & Hc & Hz).
    split; [done|]. by exists g.
  - intros fuel d now g Hm. by rewrite QuantumBlockchain_init_eq, Hm.
  - intros self Hr. destruct (reachable_ledger_inv _ Hr) as [Hne _ _ _ _].
    rewrite get_latest_block_eq.
    destruct (chain self) as [|b0 c] eqn:Hc using rev_ind; [done|].
    rewrite length_app, last_snoc. simpl. split; [lia|]. eauto.
Qed.

(** ** [is_chain_valid] *)

Lemma is_chain_valid_loop_cons (c : list Block) (d : Z) (i : nat)
    (range : list nat) (current_block previous_block : Block) :
  c !! i = Some current_block → c !! (i - 1)%nat = Some previous_block →
  is_chain_valid_loop c d (i :: range) =
  if negb (String.eqb (hash current_block) (calculate_hash current_block))
  then Ok false
  else if negb (String.eqb (previous_hash current_block) (hash previous_block))
  then Ok false
  else if negb (startswith (hash current_block) (str_mul "0" d))
  then Ok false
  else is_chain_valid_loop c d range.
Proof.
  intros Hc Hp. simpl. unfold list_index. rewrite Hc. simpl. by rewrite Hp.
Qed.

Lemma is_chain_valid_loop_head (c : list Block) (d : Z) (i : nat)
    (range : list nat) :
  (1 ≤ i < length c)%nat →
  (block_checks c d i ∧
   is_chain_valid_loop c d (i :: range) = is_chain_valid_loop c d range) ∨
  (¬ block_checks c d i ∧ is_chain_valid_loop c d (i :: range) = Ok false).
Proof.
  intros Hi.
  destruct (lookup_lt_is_Some_2 c i) as [cur Hcur]; [lia|].
  destruct (lookup_lt_is_Some_2 c (i - 1)) as [prev Hprev]; [lia|].
  rewrite (is_chain_valid_loop_cons _ _ _ _ _ _ Hcur Hprev).
  destruct (String.eqb_spec (hash cur) (calculate_hash cur)) as [H1|H1]; simpl.
  2: { right. split; [|done]. intros (cur' & prev' & ? & ? & ? & _). congruence. }
  destruct (String.eqb_spec (previous_hash cur) (hash prev)) as [H2|H2]; simpl.
  2: { right. split; [|done]. intros (cur' & prev' & ? & ? & _ & ? & _). congruence. }
  destruct (startswith (hash cur) (str_mul "0" d)) eqn:H3; simpl.
  - left. split; [|done]. exists cur, prev. apply startswith_target in H3. done.
  - right. split; [|done]. intros (cur' & prev' & ? & ? & _ & _ & Hz).
    apply startswith_target in Hz. congruence.
Qed.

Lemma is_chain_valid_loop_spec (c : list Block) (d : Z) (range : list nat) :
  (∀ i, i ∈ range → (1 ≤ i < length c)%nat) →
  ∃ v, is_chain_valid_loop c d range = Ok v ∧
       (v = true ↔ ∀ i, i ∈ range → block_checks c d i).
Proof.
  induction range as [|i range IH]; intros Hr.
  - exists true. split; [done|]. split; [|done]. intros _ i Hi. by apply elem_of_nil in Hi.
  - destruct IH as (v & Hv & Hiff).
    { intros j Hj. apply Hr. by right. }
    destruct (is_chain_valid_loop_head c d i range) as [[Hok ->]|[Hbad ->]].
    { apply Hr. by left. }
    + exists v. split; [done|]. rewrite Hiff. split.
      * intros H j Hj. apply elem_of_cons in Hj as [->|Hj]; auto.
      * intros H j Hj. apply H. by right.
    + exists false. split; [done|]. split; [done|].
      intros H. destruct Hbad. apply H. by left.
Qed.

(** The first failing block decides: the indices after it are not read. *)
Lemma is_chain_valid_loop_first_failure (c : list Block) (d : Z)
    (passed rest : list nat) (i : nat) :
  (∀ j, j ∈ passed → (1 ≤ j < length c)%nat ∧ block_checks c d j) →
  (1 ≤ i < length c)%nat → ¬ block_checks c d i →
  is_chain_valid_loop c d (passed ++ i :: rest) = Ok false.
Proof.
  induction passed as [|j passed IH]; intros Hp Hi Hbad; simpl app.
  - destruct (is_chain_valid_loop_head c d i rest Hi) as [[Hok _]|[_ H]]; done.
  - destruct (Hp j) as [Hj Hok]; [by left|].
    destruct (is_chain_valid_loop_head c d j (passed ++ i :: rest) Hj)
      as [[_ ->]|[Hno _]]; [|done].
    apply IH; [|done..]. intros k Hk. apply Hp. by right.
Qed.

Lemma is_chain_valid_loop_genesis (g g' : Block) (c : list Block) (d : Z)
    (range : list nat) :
  hash g' = hash g →
  (∀ i, i ∈ range → (1 ≤ i)%nat) →
  is_chain_valid_loop (g' :: c) d range = is_chain_valid_loop (g :: c) d range.
Proof.
  intros Hh. induction range as [|i range IH]; intros Hr; [done|].
  assert (1 ≤ i)%nat as Hi by (apply Hr; by left).
  assert (is_chain_valid_loop (g' :: c) d range =
          is_chain_valid_loop (g :: c) d range) as IH'.
  { apply IH. intros j Hj. apply Hr. by right. }
  destruct i as [|i]; [lia|]. simpl. unfold list_index. simpl.
  destruct (c !! i) as [cur|]; [|done]. simpl.
  replace (i - 0)%nat with i by lia.
  destruct i as [|i]; simpl.
  - rewrite Hh. by rewrite IH'.
  - destruct (c !! i) as [prev|]; [|done]. simpl. by rewrite IH'.
Qed.

Lemma seq_from_one (c : list Block) (i : nat) :
  i ∈ seq 1 (length c - 1) → (1 ≤ i < length c)%nat.
Proof. intros Hi. apply elem_of_seq in Hi. lia. Qed.

Lemma is_chain_valid_returns (self : QuantumBlockchain) :
  ∃ v, is_chain_valid self = Some (Ok v, self).
Proof.
  rewrite is_chain_valid_eq.
  destruct (is_chain_valid_loop_spec (chain self) (difficulty self) _
              (seq_from_one (chain self))) as (v & -> & _).
  eauto.
Qed.

Lemma is_chain_valid_true_iff (self : QuantumBlockchain) :
  is_chain_valid self = Some (Ok true, self) ↔
  ∀ i, (1 ≤ i < length (chain self))%nat →
       block_checks (chain self) (difficulty self) i.
Proof.
  rewrite is_chain_valid_eq.
  destruct (is_chain_valid_loop_spec (chain self) (difficulty self) _
              (seq_from_one (chain self))) as (v & -> & Hiff).
  split.
  - intros [= ->]. intros i Hi. apply Hiff; [done|]. apply elem_of_seq. lia.
  - intros Hall. do 3 f_equal. apply Hiff. intros i Hi.
    by apply Hall, seq_from_one.
Qed.

(** A ledger reached through the public methods validates. *)
Lemma reachable_is_chain_valid (self : QuantumBlockchain) :
  reachable self → is_chain_valid self = Some (Ok true, self).
Proof.
  intros Hr. destruct (reachable_ledger_inv _ Hr) as [_ _ Hl Hm _].
  apply is_chain_valid_true_iff. intros i Hi.
  destruct (lookup_lt_is_Some_2 (chain self) i) as [cur Hcur]; [lia|].
  destruct (lookup_lt_is_Some_2 (chain self) (i - 1)) as [prev Hprev]; [lia|].
  exists cur, prev. destruct (Hm _ _ Hcur) as [Hc Hz].
  repeat split; try done.
  destruct i as [|i]; [lia|]. replace (S i - 1)%nat with i in Hprev by lia.
  by eapply Hl.
Qed.

(** C2: [is_chain_valid] always returns a boolean and leaves the object as
    it was; it returns true exactly when every block from index 1 on has a
    stored hash equal to the recomputed one, names the stored hash of the
    block before it, and has at least [difficulty] leading zeros.  The
    block at index 0 is only read for its stored hash, and once a block
    fails, whatever follows it in the chain does not change the answer. *)
Theorem is_chain_valid_spec (self : QuantumBlockchain) :
  (∃ v, is_chain_valid self = Some (Ok v, self)) ∧
  (is_chain_valid self = Some (Ok true, self) ↔
   ∀ i, (1 ≤ i < length (chain self))%nat →
        block_checks (chain self) (difficulty self) i) ∧
  (∀ i rest,
     (1 ≤ i < length (chain self))%nat →
     (∀ j, (1 ≤ j < i)%nat → block_checks (chain self) (difficulty self) j) →
     ¬ block_checks (chain self) (difficulty self) i →
     is_chain_valid_loop (chain self) (difficulty self) (seq 1 (i - 1) ++ i :: rest)
       = Ok false ∧
     ∀ later_blocks,
       let self' := set_chain (take (S i) (chain self) ++ later_blocks) self in
       is_chain_valid self' = Some (Ok false, self')) ∧
  (∀ genesis_block genesis_block' c,
     chain self = genesis_block :: c →
     hash genesis_block' = hash genesis_block →
     let self' := set_chain (genesis_block' :: c) self in
     ∀ v, is_chain_valid self = Some (Ok v, self) ↔
          is_chain_valid self' = Some (Ok v, self')).
Proof.
  split; [apply is_chain_valid_returns|].
  split; [apply is_chain_valid_true_iff|]. split.
  - intros i rest Hi Hpass Hbad. split.
    + apply is_chain_valid_loop_first_failure; [|done..].
      intros j Hj. apply elem_of_seq in Hj. split; [lia|]. apply Hpass. lia.
    + intros later self'.
      destruct (is_chain_valid_returns self') as ([|] & Hv); [|done].
      exfalso. apply Hbad.
      assert (Hi' : (1 ≤ i < length (chain self'))%nat).
      { subst self'. simpl. rewrite length_app, length_take. lia. }
      destruct (proj1 (is_chain_valid_true_iff self') Hv i Hi')
        as (cur & prev & Hc & Hp & Hrest).
      exists cur, prev. subst self'. simpl in Hc, Hp.
      rewrite lookup_app_l in Hc by (rewrite length_take; lia).
      rewrite lookup_app_l in Hp by (rewrite length_take; lia).
      rewrite lookup_take_lt in Hc, Hp by lia. done.
  - intros g g' c Hc Hh self' v. rewrite !is_chain_valid_eq.
    subst self'. simpl. rewrite Hc. simpl.
    rewrite (is_chain_valid_loop_genesis g g' c _ _ Hh).
    2: { intros i Hi. apply elem_of_seq in Hi. lia. }
    split; intros [= ->]; reflexivity.
Qed.

(** ** [get_balance] *)

Lemma replay_transaction_raise (address : string) (e : exn) (l : list Transaction) :
  foldl (replay_transaction address) (Raise e) l = Raise e.
Proof. induction l as [|tx l IH]; [done|]. simpl. exact IH. Qed.

Lemma replay_transaction_ok (address : string) (balance : pyval)
    (transaction : Transaction) :
  replay_transaction address (Ok balance) transaction =
  balance_transaction address balance transaction.
Proof. reflexivity. Qed.

Lemma balance_transactions_foldl (address : string) (balance : pyval)
    (l : list Transaction) :
  balance_transactions address balance l =
  foldl (replay_transaction address) (Ok balance) l.
Proof.
  revert balance. induction l as [|tx l IH]; intros balance; [done|].
  cbn [balance_transactions foldl]. rewrite replay_transaction_ok.
  destruct (balance_transaction address balance tx) as [balance'|e].
  - apply IH.
  - by rewrite replay_transaction_raise.
Qed.

Lemma balance_blocks_foldl (address : string) (balance : pyval) (c : list Block) :
  balance_blocks address balance c =
  foldl (replay_transaction address) (Ok balance) (concat (map transactions c)).
Proof.
  revert balance. induction c as [|b c IH]; intros balance; [done|].
  cbn [balance_blocks map concat]. rewrite foldl_app, balance_transactions_foldl.
  destruct (foldl _ _ (transactions b)) as [balance'|e].
  - apply IH.
  - by rewrite replay_transaction_raise.
Qed.

(** C5, as the code has it: [get_balance] leaves the object as it was and
    returns the fold of the specification (so two calls on one state agree);
    on an integer balance a transaction from the address to itself with an
    integer amount, or with no amount, changes nothing. *)
Theorem get_balance_spec (address : string) (self : QuantumBlockchain) :
  get_balance address self = Some (replay address (chain self), self) ∧
  (∀ transaction balance amount,
     transaction !! "from" = Some (PStr address) →
     transaction !! "to" = Some (PStr address) →
     transaction !! "amount" = Some (PInt amount) ∨
       transaction !! "amount" = None →
     replay_transaction address (Ok (PInt balance)) transaction =
       Ok (PInt balance)) ∧
  (∀ transaction balance,
     dict_get transaction "from" ≠ PStr address →
     dict_get transaction "to" ≠ PStr address →
     replay_transaction address (Ok balance) transaction = Ok balance).
Proof.
  split; [|split].
  - rewrite get_balance_eq. unfold replay. by rewrite balance_blocks_foldl.
  - intros tx z a Hf Ht Ha. unfold replay_transaction, dict_get, dict_get_default.
    rewrite Hf, Ht. simpl. rewrite String.eqb_refl. simpl.
    destruct Ha as [-> | ->]; simpl; unfold py_sub, py_add, py_arith; simpl;
      do 2 f_equal; lia.
  - intros tx v Hf Ht. unfold replay_transaction. simpl.
    assert (∀ w, w ≠ PStr address → py_eq_str w address = false) as Hne.
    { intros [] Hw; try done. simpl. apply String.eqb_neq. congruence. }
    by rewrite !Hne.
Qed.

(** ** The text a block is hashed from *)

Lemma append_cons (c : ascii) (s r : string) :
  (String c s ++ r = String c (s ++ r))%string.
Proof. reflexivity. Qed.

Lemma append_assoc (s1 s2 s3 : string) :
  ((s1 ++ s2) ++ s3 = s1 ++ (s2 ++ s3))%string.
Proof.
  induction s1 as [|c s1 IH]; [reflexivity|].
  by rewrite !append_cons, IH.
Qed.

Lemma append_split_at (c : ascii) (s1 s2 r1 r2 : string) :
  has_char c s1 = false → has_char c s2 = false →
  (s1 ++ String c r1 = s2 ++ String c r2)%string →
  s1 = s2 ∧ r1 = r2.
Proof.
  revert s2. induction s1 as [|a s1 IH]; intros [|a' s2] H1 H2 Heq;
    rewrite ?append_cons in Heq; cbn [has_char] in *.
  - by injection Heq.
  - injection Heq as <- _. by rewrite Ascii.eqb_refl in H2.
  - injection Heq as -> _. by rewrite Ascii.eqb_refl in H1.
  - injection Heq as <- Heq.
    apply orb_false_iff in H1 as [_ H1]. apply orb_false_iff in H2 as [_ H2].
    destruct (IH _ H1 H2 Heq) as [-> ->]. done.
Qed.

Lemma string_of_uint_no_comma (d : Decimal.uint) :
  has_char "," (NilEmpty.string_of_uint d) = false.
Proof. induction d; simpl; done. Qed.

Lemma json_int_no_comma (z : Z) : has_char "," (json_int z) = false.
Proof.
  unfold json_int. destruct (Z.to_int z) as [d|d]; simpl.
  - destruct d; try apply (string_of_uint_no_comma (_ _)); done.
  - destruct d; try apply (string_of_uint_no_comma (_ _)); done.
Qed.

Lemma json_int_inj (z z' : Z) : json_int z = json_int z' → z = z'.
Proof.
  unfold json_int. intros Heq. apply DecimalZ.to_int_inj.
  assert (∀ z, NilZero.int_of_string (NilZero.string_of_int (Z.to_int z)) =
               Some (Z.to_int z)) as Hrt.
  { intros [|p|p]; [done| |]; apply NilZero.isi; intros [= Hn];
      by apply Unsigned.to_uint_nonnil in Hn. }
  pose proof (Hrt z) as H1. rewrite Heq, Hrt in H1. congruence.
Qed.

Lemma sorted_block_items (F : pyval → string) (v1 v2 v3 v4 v5 : pyval) :
  sort_items (map_fold (λ k x acc, (k, F x) :: acc) []
    (<["index" := v1]> (<["timestamp" := v2]> (<["transactions" := v3]>
      (<["previous_hash" := v4]> (<["nonce" := v5]> (∅ : gmap string pyval))))))) =
  [("index", F v1); ("nonce", F v5); ("previous_hash", F v4);
   ("timestamp", F v2); ("transactions", F v3)]%string.
Proof. vm_compute. reflexivity. Qed.

Lemma block_string_eq (b : Block) :
  json_dumps (block_data b) =
  ("{" ++ json_key "index" ++ json_int (index b) ++ ", " ++
   json_key "nonce" ++ json_int (nonce b) ++ ", " ++
   json_key "previous_hash" ++ json_str (previous_hash b) ++ ", " ++
   json_key "timestamp" ++ float_repr (timestamp b) ++ ", " ++
   json_key "transactions" ++
   json_dumps (PList (map PDict (transactions b))) ++ "}")%string.
Proof.
  unfold block_data. cbn [json_dumps].
  rewrite (sorted_block_items json_dumps).
  cbn [map String.concat]. unfold json_item, json_key. cbn [fst snd json_dumps].
  rewrite !append_assoc. reflexivity.
Qed.

Lemma append_inj_l (s r1 r2 : string) : (s ++ r1 = s ++ r2)%string → r1 = r2.
Proof.
  induction s as [|c s IH]; [done|]. rewrite !append_cons. intros [= Heq]. auto.
Qed.

Lemma json_unescape_escape_char (c : ascii) (r : string) :
  json_unescape_char (json_escape_char c ++ r) = Some (c, r).
Proof.
  destruct c as [[] [] [] [] [] [] [] []]; reflexivity.
Qed.

Lemma json_escape_inj (s s' r r' : string) :
  (json_escape s ++ String quote_char r =
   json_escape s' ++ String quote_char r')%string →
  s = s' ∧ r = r'.
Proof.
  revert s'. induction s as [|c s IH]; intros [|c' s'] Heq.
  - by injection Heq as ->.
  - apply (f_equal json_unescape_char) in Heq. cbn [json_escape] in Heq.
    rewrite append_assoc, json_unescape_escape_char in Heq. discriminate Heq.
  - apply (f_equal json_unescape_char) in Heq. cbn [json_escape] in Heq.
    rewrite append_assoc, json_unescape_escape_char in Heq. discriminate Heq.
  - apply (f_equal json_unescape_char) in Heq. cbn [json_escape] in Heq.
    rewrite !append_assoc, !json_unescape_escape_char in Heq.
    injection Heq as <- Heq. destruct (IH _ Heq) as [-> ->]. done.
Qed.

Lemma json_str_inj (s s' r r' : string) :
  (json_str s ++ r = json_str s' ++ r')%string → s = s' ∧ r = r'.
Proof.
  unfold json_str. rewrite !append_cons, !append_assoc, !append_cons.
  intros [= Heq]. by apply json_escape_inj in Heq.
Qed.

Lemma block_string_inj (b b' : Block) :
  json_dumps (block_data b) = json_dumps (block_data b') →
  index b = index b' ∧ nonce b = nonce b' ∧ previous_hash b = previous_hash b'.
Proof.
  rewrite !block_string_eq. intros Heq.
  apply append_inj_l, append_inj_l in Heq.
  change (", " ++ ?x)%string with (String "," (" " ++ x)%string) in Heq.
  apply append_split_at in Heq as [Hi Heq]; try apply json_int_no_comma.
  apply append_inj_l, append_inj_l in Heq.
  change (", " ++ ?x)%string with (String "," (" " ++ x)%string) in Heq.
  apply append_split_at in Heq as [Hn Heq]; try apply json_int_no_comma.
  apply append_inj_l, append_inj_l in Heq.
  apply json_str_inj in Heq as [Hp _].
  repeat split; try done; by apply json_int_inj.
Qed.

(** ** Tampering *)

(** C8, as the code has it: in a chain that validates, take a block after
    the genesis block and replace it by one that differs from it only in
    the stored hash, or by one with the same stored hash whose recomputed
    digest differs; then [is_chain_valid] returns false.  The digest does
    differ when the index, the nonce or the previous hash was changed and
    the digest tells the two texts apart. *)
Theorem tamper_detected (self : QuantumBlockchain) (i : nat) (b b' : Block) :
  is_chain_valid self = Some (Ok true, self) →
  (0 < i)%nat →
  chain self !! i = Some b →
  (hash b' ≠ hash b ∧ index b' = index b ∧ timestamp b' = timestamp b ∧
   transactions b' = transactions b ∧ previous_hash b' = previous_hash b ∧
   nonce b' = nonce b) ∨
  (hash b' = hash b ∧ calculate_hash b' ≠ calculate_hash b) ∨
  (hash b' = hash b ∧ digest_separates b' b ∧
   (index b' ≠ index b ∨ nonce b' ≠ nonce b ∨
    previous_hash b' ≠ previous_hash b)) →
  let self' := set_chain (<[i := b']> (chain self)) self in
  is_chain_valid self' = Some (Ok false, self').
Proof.
  intros Hvalid Hi Hb Htamper self'.
  pose proof (lookup_lt_Some _ _ _ Hb) as Hlen.
  destruct (proj1 (is_chain_valid_true_iff self) Hvalid i)
    as (cur & prev & Hcur & _ & Hh & _); [lia|].
  assert (cur = b) as -> by congruence.
  assert (hash b' ≠ calculate_hash b') as Hstale.
  { destruct Htamper as [(Hne & H1 & H2 & H3 & H4 & H5)|[(Heq & Hne)|(Heq & Hsep & Hne)]].
    - replace (calculate_hash b') with (calculate_hash b); [congruence|].
      unfold calculate_hash, block_data. by rewrite H1, H2, H3, H4, H5.
    - congruence.
    - intros Hsame. rewrite Heq, Hh in Hsame. symmetry in Hsame.
      destruct (block_string_inj _ _ (Hsep Hsame)) as (H1 & H2 & H3). tauto. }
  destruct (is_chain_valid_returns self') as ([|] & Hv); [|done]. exfalso.
  destruct (proj1 (is_chain_valid_true_iff self') Hv i)
    as (cur' & _ & Hcur' & _ & Hh' & _).
  { subst self'. simpl. rewrite length_insert. lia. }
  subst self'. simpl in Hcur'. rewrite list_lookup_insert_eq in Hcur' by done.
  congruence.
Qed.

(** A tuple and the list of the same elements have one JSON text, so a
    block's digest cannot tell them apart. *)
Lemma json_dumps_tuple (l : list pyval) :
  json_dumps (PTuple l) = json_dumps (PList l).
Proof. reflexivity. Qed.

(** ** Further properties: mining *)

Lemma mine_block_least (fuel : nat) (d : Z) (b b' : Block) :
  mine_block fuel d b = Some b' →
  ∃ k, (k ≤ fuel)%nat ∧ b' = Nat.iter k mine_step b ∧
       ∀ j, (j < k)%nat →
            startswith (hash (Nat.iter j mine_step b)) (str_mul "0" d) = false.
Proof.
  revert b. induction fuel as [|fuel IH]; intros b; rewrite mine_block_unfold;
    destruct (startswith (hash b) (str_mul "0" d)) eqn:Hs; intros Hm;
    try discriminate.
  1,2: injection Hm as <-; exists O; split; [lia|]; split; [done|]; intros j Hj; exfalso; revert Hj; clear; lia.
  destruct (IH _ Hm) as (k & Hk & -> & Hall).
  exists (S k). split; [lia|]. split; [by rewrite Nat.iter_succ_r|].
  intros [|j] Hj; [done|]. rewrite Nat.iter_succ_r. apply Hall. lia.
Qed.

Lemma nonce_mine_step (b : Block) : nonce (mine_step b) = nonce b + 1.
Proof. reflexivity. Qed.

Lemma nonce_iter_mine_step (k : nat) (b : Block) :
  nonce (Nat.iter k mine_step b) = nonce b + Z.of_nat k.
Proof.
  induction k as [|k IH]; [simpl; lia|].
  rewrite Nat.iter_succ, nonce_mine_step, IH. lia.
Qed.

(** X1: the block [mine_block] returns carries the first nonce, counting up
    from the one it started with, whose digest meets the target: no nonce
    before it does. *)
Theorem mine_block_first_nonce (fuel : nat) (d : Z) (b b' : Block) :
  mine_block fuel d b = Some b' →
  ∃ k : nat,
    nonce b' = nonce b + Z.of_nat k ∧
    b' = Nat.iter k mine_step b ∧
    d ≤ Z.of_nat (leading_zeros (hash b')) ∧
    ∀ j, (j < k)%nat →
         ¬ d ≤ Z.of_nat (leading_zeros (hash (Nat.iter j mine_step b))).
Proof.
  intros Hm. destruct (mine_block_least _ _ _ _ Hm) as (k & _ & -> & Hall).
  exists k. split; [apply nonce_iter_mine_step|]. split; [done|]. split.
  - destruct (mine_block_inv _ _ _ _ Hm) as (Hz & _). by apply startswith_target.
  - intros j Hj Hz. apply startswith_target in Hz. rewrite Hall in Hz by done.
    discriminate Hz.
Qed.

(** X2: a block that [mine_block] returned is returned as it is, with no
    loop round, by any later [mine_block] at the same or a lower
    difficulty. *)
Theorem mine_block_again (fuel fuel' : nat) (d d' : Z) (b b' : Block) :
  mine_block fuel d b = Some b' →
  d' ≤ d →
  mine_block fuel' d' b' = Some b'.
Proof.
  intros Hm Hd. destruct (mine_block_inv _ _ _ _ Hm) as (Hz & _).
  apply startswith_target in Hz. rewrite mine_block_unfold.
  assert (startswith (hash b') (str_mul "0" d') = true) as ->; [|done].
  apply startswith_target. lia.
Qed.

(** ** Further properties: reachable ledgers *)

(** X3: on a ledger reached through the public methods [is_chain_valid]
    returns true, and every block, the genesis block too, carries the
    digest of its own fields with at least [difficulty] leading zeros. *)
Theorem reachable_chain_mined_and_valid (self : QuantumBlockchain) :
  reachable self →
  is_chain_valid self = Some (Ok true, self) ∧
  ∀ i b, chain self !! i = Some b →
         hash b = calculate_hash b ∧
         difficulty self ≤ Z.of_nat (leading_zeros (hash b)).
Proof.
  intros Hr. split; [by apply reachable_is_chain_valid|].
  destruct (reachable_ledger_inv _ Hr) as [_ _ _ Hm _]. exact Hm.
Qed.

Lemma get_chain_info_eq (self : QuantumBlockchain) :
  get_chain_info self =
  match is_chain_valid_loop (chain self) (difficulty self)
          (seq 1 (length (chain self) - 1)) with
  | Ok valid =>
      match last (chain self) with
      | Some latest =>
          Some (Ok (mkChainInfo (length (chain self)) (difficulty self) valid
                      (length (pending_transactions self))
                      (index latest) (hash latest) (timestamp latest)), self)
      | None => Some (Raise IndexError, self)
      end
  | Raise e => Some (Raise e, self)
  end.
Proof.
  unfold get_chain_info, mbind, M_bind, m_get. rewrite is_chain_valid_eq.
  destruct (is_chain_valid_loop _ _ _); [|done].
  rewrite get_latest_block_eq. by destruct (last _).
Qed.

(** X4: on a reachable ledger [get_chain_info] returns, without changing
    the ledger, the chain length, the difficulty, a true validity flag, the
    pool size and the last block's index, hash and timestamp, the index
    being the length less one; on an empty chain it raises [IndexError]. *)
Theorem get_chain_info_spec (self : QuantumBlockchain) :
  (chain self = [] → get_chain_info self = Some (Raise IndexError, self)) ∧
  (reachable self →
   ∃ latest,
     last (chain self) = Some latest ∧
     index latest = Z.of_nat (length (chain self)) - 1 ∧
     get_chain_info self =
       Some (Ok (mkChainInfo (length (chain self)) (difficulty self) true
                   (length (pending_transactions self))
                   (index latest) (hash latest) (timestamp latest)), self)).
Proof.
  split.
  - intros Hc. rewrite get_chain_info_eq, Hc. reflexivity.
  - intros Hr. destruct (reachable_ledger_inv _ Hr) as [Hne Hi _ _ _].
    pose proof (reachable_is_chain_valid _ Hr) as Hv.
    rewrite is_chain_valid_eq in Hv. injection Hv as Hv.
    rewrite get_chain_info_eq, Hv.
    destruct (last (chain self)) as [latest|] eqn:Hl.
    2: { apply last_None in Hl. done. }
    exists latest. split; [done|]. split; [|done].
    rewrite last_lookup in Hl. rewrite (Hi _ _ Hl).
    destruct (chain self); [done|]. simpl. lia.
Qed.

Lemma has_required_keys_spec (transaction : Transaction) :
  has_required_keys transaction = true ↔ ¬ missing_field transaction.
Proof.
  unfold has_required_keys, missing_field, dict_in.
  destruct (transaction !! "from"), (transaction !! "to"),
    (transaction !! "amount"); simpl; split; try done;
    intros H; try (by intros [?|[?|?]]); exfalso; apply H; auto.
Qed.

Lemma has_required_keys_reward (miner_address : string) (reward : Z) :
  has_required_keys (reward_transaction miner_address reward) = true.
Proof. reflexivity. Qed.

Lemma run_keys_inv (fuel : nat) (c : call) (self self' : QuantumBlockchain)
    (r : result retval) :
  chain self ≠ [] → keys_inv self → run fuel c self = Some (r, self') →
  keys_inv self'.
Proof.
  intros Hne [Hp Hc] Hrun. destruct c as [tx|miner now|address| | |].
  - unfold run, mbind, M_bind in Hrun.
    destruct (missing_field_dec tx) as [Hm|Hm].
    + rewrite add_transaction_raise in Hrun by done.
      injection Hrun as _ <-. by split.
    + rewrite add_transaction_ok in Hrun by done.
      injection Hrun as _ <-. split; simpl; [|done].
      apply Forall_app. split; [done|]. apply Forall_singleton.
      by apply has_required_keys_spec.
  - unfold run, mbind, M_bind in Hrun.
    rewrite mine_pending_transactions_eq in Hrun.
    destruct (last (chain self)) as [latest|] eqn:Hl.
    2: { injection Hrun as _ <-. by split. }
    destruct (mine_block _ _ _) as [nb|] eqn:Hm; [|done].
    injection Hrun as _ <-.
    destruct (mine_block_inv _ _ _ _ Hm) as (_ & (_ & _ & Ht & _) & _).
    split; simpl.
    + apply Forall_singleton, has_required_keys_reward.
    + intros i b Hi Hb.
      destruct (decide (i < length (chain self))%nat) as [Hlt|Hge].
      * rewrite lookup_app_l in Hb by done. by eapply Hc.
      * rewrite lookup_app_r in Hb by lia.
        destruct (i - length (chain self))%nat; simpl in Hb; [|done].
        injection Hb as <-. by rewrite Ht.
  - unfold run, mbind, M_bind in Hrun. rewrite get_balance_eq in Hrun.
    destruct (balance_blocks _ _ _); injection Hrun as _ <-; by split.
  - unfold run, mbind, M_bind in Hrun. rewrite is_chain_valid_eq in Hrun.
    destruct (is_chain_valid_loop _ _ _); injection Hrun as _ <-; by split.
  - unfold run, mbind, M_bind in Hrun. rewrite get_latest_block_eq in Hrun.
    destruct (last _); injection Hrun as _ <-; by split.
  - unfold run, mbind, M_bind in Hrun. rewrite get_chain_info_eq in Hrun.
    destruct (is_chain_valid_loop _ _ _); [|injection Hrun as _ <-; by split].
    destruct (last _); injection Hrun as _ <-; by split.
Qed.

(** X5: on a reachable ledger every transaction waiting in the pool, and
    every transaction of every block after the genesis block, has the keys
    from, to and amount. *)
Theorem reachable_transactions_have_keys (self : QuantumBlockchain) :
  reachable self →
  (∀ tx, tx ∈ pending_transactions self →
         is_Some (tx !! "from") ∧ is_Some (tx !! "to") ∧
         is_Some (tx !! "amount")) ∧
  (∀ i b tx, (0 < i)%nat → chain self !! i = Some b → tx ∈ transactions b →
             is_Some (tx !! "from") ∧ is_Some (tx !! "to") ∧
             is_Some (tx !! "amount")).
Proof.
  intros Hr.
  assert (∀ tx, has_required_keys tx = true →
            is_Some (tx !! "from") ∧ is_Some (tx !! "to") ∧
            is_Some (tx !! "amount")) as Hkeys.
  { intros tx. unfold has_required_keys, dict_in.
    destruct (tx !! "from"), (tx !! "to"), (tx !! "amount"); simpl;
      try done; eauto. }
  assert (keys_inv self) as [Hp Hc].
  { induction Hr as [fuel d now self Hinit|fuel c self r self' Hr IH Hrun].
    - destruct (QuantumBlockchain_init_inv _ _ _ _ Hinit) as (g & -> & _).
      split; simpl; [done|]. intros [|i] b Hi Hb; [lia|done].
    - eapply run_keys_inv; [|exact IH|exact Hrun].
      by destruct (reachable_ledger_inv _ Hr). }
  split.
  - intros tx Htx. apply Hkeys. by eapply (proj1 (Forall_forall _ _) Hp).
  - intros i b tx Hi Hb Htx. apply Hkeys.
    by eapply (proj1 (Forall_forall _ _) (Hc i b Hi Hb)).
Qed.

(** ** Further properties: the extremes of the difficulty *)

Lemma run_difficulty (fuel : nat) (c : call) (self self' : QuantumBlockchain)
    (r : result retval) :
  run fuel c self = Some (r, self') →
  difficulty self' = difficulty self ∧ (chain self ≠ [] → chain self' ≠ []).
Proof.
  intros Hrun.
  destruct (run_effect _ _ _ _ _ Hrun)
    as [->|[(tx & ->)|(m & l & nb & _ & -> & _)]]; simpl; [done..|].
  split; [done|]. intros _. by destruct (chain self).
Qed.

Lemma reaches_difficulty (self self' : QuantumBlockchain) :
  reaches self self' →
  difficulty self' = difficulty self ∧ (chain self ≠ [] → chain self' ≠ []).
Proof.
  induction 1 as [self|fuel c self r self' self'' Hrun _ [IHd IHc]]; [done|].
  destruct (run_difficulty _ _ _ _ _ Hrun) as [Hd Hc].
  split; [congruence | auto].
Qed.

(** X6: with a difficulty of zero or less the constructor returns without a
    single loop round, and on every ledger that calls make of the one it
    built, [mine_pending_transactions] returns at once with a block whose
    nonce is 0. *)
Theorem nonpositive_difficulty_never_searches (d : Z) (now : float) :
  d ≤ 0 →
  ∃ self0,
    QuantumBlockchain_init 0 d now = Some self0 ∧
    ∀ self, reaches self0 self →
      ∀ miner_address now',
      ∃ new_block self',
        mine_pending_transactions 0 miner_address now' self =
          Some (Ok new_block, self') ∧
        nonce new_block = 0.
Proof.
  intros Hd.
  exists (mkQuantumBlockchain [Block_init 0 now [genesis_transaction] "0" 0] d [] 100).
  split.
  - rewrite QuantumBlockchain_init_eq. by rewrite mine_block_nonpositive.
  - intros self Hreach miner now'.
    destruct (reaches_difficulty _ _ Hreach) as [Hdiff Hne]. simpl in Hdiff, Hne.
    rewrite mine_pending_transactions_eq.
    destruct (last (chain self)) as [latest|] eqn:Hl.
    2: { apply last_None in Hl. by destruct Hne. }
    rewrite mine_block_nonpositive by lia. eauto.
Qed.

(** X7: when digests are 64 characters long and the difficulty is above 64,
    the constructor never returns, and neither does
    [mine_pending_transactions] on any ledger that has a last block. *)
Theorem difficulty_above_digest_length_hangs (d : Z) :
  (∀ s, String.length (sha3_256_hexdigest s) = 64%nat) →
  64 < d →
  (∀ fuel now, QuantumBlockchain_init fuel d now = None) ∧
  (∀ self fuel miner_address now,
     difficulty self = d → chain self ≠ [] →
     mine_pending_transactions fuel miner_address now self = None).
Proof.
  intros Hlen Hd. split.
  - intros fuel now. rewrite QuantumBlockchain_init_eq.
    by rewrite mine_block_target_too_long
      by (done || apply Block_init_hash_current).
  - intros self fuel miner now Hdiff Hne.
    rewrite mine_pending_transactions_eq.
    destruct (last (chain self)) as [latest|] eqn:Hl.
    2: { apply last_None in Hl. done. }
    rewrite Hdiff.
    by rewrite mine_block_target_too_long
      by (done || apply Block_init_hash_current).
Qed.

(** ** Further properties: balances *)

Lemma balance_blocks_transactions (address : string) (balance : pyval)
    (c : list Block) :
  balance_blocks address balance c =
  balance_transactions address balance (chain_transactions c).
Proof.
  unfold chain_transactions.
  by rewrite balance_blocks_foldl, balance_transactions_foldl.
Qed.

Lemma balance_transactions_app (address : string) (balance : pyval)
    (l1 l2 : list Transaction) :
  balance_transactions address balance (l1 ++ l2) =
  (balance ← balance_transactions address balance l1;
   balance_transactions address balance l2).
Proof.
  revert balance. induction l1 as [|tx l1 IH]; intros balance; [done|].
  cbn [app balance_transactions].
  destruct (balance_transaction address balance tx) as [balance'|e]; [|done].
  apply IH.
Qed.

Lemma chain_transactions_snoc (c : list Block) (b : Block) :
  chain_transactions (c ++ [b]) = chain_transactions c ++ transactions b.
Proof.
  unfold chain_transactions. rewrite map_app, concat_app. simpl.
  by rewrite app_nil_r.
Qed.

Lemma get_balance_mined (fuel : nat) (miner_address address : string)
    (now : float) (self self' : QuantumBlockchain) (new_block : Block) :
  mine_pending_transactions fuel miner_address now self =
    Some (Ok new_block, self') →
  get_balance address self' =
  Some (balance ← balance_blocks address (PInt 0) (chain self);
        balance_transactions address balance (pending_transactions self),
        self').
Proof.
  rewrite mine_pending_transactions_eq.
  destruct (last (chain self)) as [latest|]; [|done].
  destruct (mine_block _ _ _) as [nb|] eqn:Hm; [|done].
  intros [= <- <-].
  destruct (mine_block_inv _ _ _ _ Hm) as (_ & (_ & _ & Ht & _) & _).
  rewrite get_balance_eq. simpl.
  rewrite !balance_blocks_transactions, chain_transactions_snoc,
    balance_transactions_app, Ht. reflexivity.
Qed.

(** X8: after [mine_pending_transactions] has returned, the balance of any
    address is what [get_balance] computed before the call, carried on
    through the transactions that were in the pool, in their order; if
    [get_balance] raised before, it raises the same now. *)
Theorem mine_pending_transactions_balance (fuel : nat)
    (miner_address address : string) (now : float)
    (self self' : QuantumBlockchain) (new_block : Block)
    (before : result pyval) :
  mine_pending_transactions fuel miner_address now self =
    Some (Ok new_block, self') →
  get_balance address self = Some (before, self) →
  get_balance address self' =
  Some (match before with
        | Ok balance =>
            balance_transactions address balance (pending_transactions self)
        | Raise e => Raise e
        end, self').
Proof.
  intros Hmine Hbefore. rewrite (get_balance_mined _ _ _ _ _ _ _ Hmine).
  rewrite get_balance_eq in Hbefore. injection Hbefore as <-.
  by destruct (balance_blocks _ _ _).
Qed.

Lemma balance_transaction_untouched (address : string) (balance : pyval)
    (transaction : Transaction) :
  sends address transaction = false → receives address transaction = false →
  balance_transaction address balance transaction = Ok balance.
Proof.
  unfold sends, receives, balance_transaction. by intros -> ->.
Qed.

(** X9: an address that no transaction of the chain names as sender or
    receiver has balance 0, whatever else the transactions hold. *)
Theorem get_balance_unknown_address (address : string) (self : QuantumBlockchain) :
  (∀ tx, tx ∈ chain_transactions (chain self) →
         dict_get tx "from" ≠ PStr address ∧ dict_get tx "to" ≠ PStr address) →
  get_balance address self = Some (Ok (PInt 0), self).
Proof.
  intros Hall. rewrite get_balance_eq, balance_blocks_transactions.
  do 2 f_equal. generalize (PInt 0) as balance.
  induction (chain_transactions (chain self)) as [|tx l IH]; intros balance;
    [done|].
  assert (∀ w, w ≠ PStr address → py_eq_str w address = false) as Hne.
  { intros [] Hw; try done. simpl. apply String.eqb_neq. congruence. }
  destruct (Hall tx) as [Hf Ht]; [by left|].
  cbn [balance_transactions].
  rewrite balance_transaction_untouched by (by apply Hne).
  apply IH. intros tx' Htx'. apply Hall. by right.
Qed.

Lemma balance_transaction_int (address : string) (z : Z)
    (transaction : Transaction) :
  (sends address transaction || receives address transaction = true →
   is_Some (int_amount transaction)) →
  balance_transaction address (PInt z) transaction =
  Ok (PInt (z + net_transaction address transaction)).
Proof.
  unfold net_transaction, balance_transaction, sends, receives, int_amount,
    amount_of.
  intros Hint.
  destruct (py_eq_str (dict_get transaction "from") address) eqn:Hs,
    (py_eq_str (dict_get transaction "to") address) eqn:Hr; simpl in *.
  4: { do 2 f_equal. lia. }
  all: destruct Hint as [n Hn]; [done|];
    destruct (as_number (dict_get_default transaction "amount" (PInt 0)))
      as [[n'|f]|] eqn:Ha; try discriminate Hn;
    injection Hn as ->; unfold py_sub, py_add, py_arith; simpl; rewrite ?Ha;
    simpl; do 2 f_equal; lia.
Qed.

Lemma balance_transactions_int (address : string) (z : Z)
    (l : list Transaction) :
  (∀ tx, tx ∈ l → sends address tx || receives address tx = true →
         is_Some (int_amount tx)) →
  balance_transactions address (PInt z) l =
  Ok (PInt (z + foldr Z.add 0 (map (net_transaction address) l))).
Proof.
  revert z. induction l as [|tx l IH]; intros z Hall.
  - simpl. do 2 f_equal. lia.
  - cbn [balance_transactions map foldr].
    rewrite balance_transaction_int by (apply Hall; by left). simpl.
    rewrite IH by (intros tx' Htx'; apply Hall; by right).
    do 2 f_equal. lia.
Qed.

Lemma get_balance_int (address : string) (self : QuantumBlockchain) :
  (∀ tx, tx ∈ chain_transactions (chain self) →
         sends address tx || receives address tx = true →
         is_Some (int_amount tx)) →
  get_balance address self =
  Some (Ok (PInt (net_balance address (chain self))), self).
Proof.
  intros Hall. rewrite get_balance_eq, balance_blocks_transactions.
  rewrite balance_transactions_int by done. reflexivity.
Qed.

(** X10: when every transaction that names the address as sender or receiver
    has an integer amount (or none), [get_balance] does not raise and
    returns the integer sum of the amounts received less the sum of the
    amounts sent. *)
Theorem get_balance_integer_ledger (address : string) (self : QuantumBlockchain) :
  (∀ tx, tx ∈ chain_transactions (chain self) →
         sends address tx || receives address tx = true →
         is_Some (int_amount tx)) →
  get_balance address self =
  Some (Ok (PInt
    (foldr Z.add 0
       (map (λ tx, if receives address tx then default 0 (int_amount tx) else 0)
            (chain_transactions (chain self))) -
     foldr Z.add 0
       (map (λ tx, if sends address tx then default 0 (int_amount tx) else 0)
            (chain_transactions (chain self))))), self).
Proof.
  intros Hall. rewrite get_balance_int by done.
  unfold net_balance. fold (chain_transactions (chain self)).
  do 4 f_equal. clear Hall.
  induction (chain_transactions (chain self)) as [|tx l IH]; [done|].
  cbn [map foldr]. rewrite IH. unfold net_transaction. cbv zeta. lia.
Qed.

Lemma py_arith_numeric (iop : Z → Z → Z) (fop : float → float → float)
    (a b v : pyval) :
  py_arith iop fop a b = Ok v → is_Some (as_number v).
Proof.
  unfold py_arith.
  destruct (as_number a) as [[x|f]|], (as_number b) as [[y|g]|];
    try discriminate; try (intros [= <-]; simpl; eauto).
  - destruct (float_of_int x); [|discriminate]. intros [= <-]. simpl. eauto.
  - destruct (float_of_int y); [|discriminate]. intros [= <-]. simpl. eauto.
Qed.

Lemma py_arith_not_a_number (iop : Z → Z → Z) (fop : float → float → float)
    (a b : pyval) :
  as_number b = None → py_arith iop fop a b = Raise TypeError.
Proof.
  unfold py_arith. intros ->. by destruct (as_number a) as [[x|f]|].
Qed.

Lemma balance_transaction_numeric (address : string) (balance balance' : pyval)
    (transaction : Transaction) :
  is_Some (as_number balance) →
  balance_transaction address balance transaction = Ok balance' →
  is_Some (as_number balance').
Proof.
  unfold balance_transaction. intros Hn.
  destruct (py_eq_str (dict_get transaction "from") address).
  - destruct (py_sub balance _) as [b1|e] eqn:H1; [|discriminate]. simpl.
    apply py_arith_numeric in H1.
    destruct (py_eq_str (dict_get transaction "to") address).
    + apply py_arith_numeric.
    + by intros [= <-].
  - simpl. destruct (py_eq_str (dict_get transaction "to") address).
    + apply py_arith_numeric.
    + by intros [= <-].
Qed.

Lemma balance_transaction_bad_amount (address : string) (balance : pyval)
    (transaction : Transaction) :
  sends address transaction || receives address transaction = true →
  as_number (amount_of transaction) = None →
  ∃ e, balance_transaction address balance transaction = Raise e.
Proof.
  unfold sends, receives, amount_of, balance_transaction. intros Ht Ha.
  destruct (py_eq_str (dict_get transaction "from") address).
  - unfold py_sub. rewrite py_arith_not_a_number by done. simpl. eauto.
  - simpl in *. rewrite Ht. unfold py_add.
    rewrite py_arith_not_a_number by done. eauto.
Qed.

(** X11: a transaction whose amount is not a number (a string, a list,
    [None]) was accepted by [add_transaction]; once it is in the chain,
    [get_balance] raises for its sender and for its receiver, and leaves
    the ledger as it was. *)
Theorem get_balance_raises_on_bad_amount (address : string)
    (self : QuantumBlockchain) (transaction : Transaction) :
  transaction ∈ chain_transactions (chain self) →
  sends address transaction || receives address transaction = true →
  as_number (amount_of transaction) = None →
  ∃ e, get_balance address self = Some (Raise e, self).
Proof.
  intros Hin Ht Ha. rewrite get_balance_eq, balance_blocks_transactions.
  assert (∃ e, balance_transactions address (PInt 0)
                 (chain_transactions (chain self)) = Raise e) as [e ->];
    [|eauto].
  assert (is_Some (as_number (PInt 0))) as Hn by (simpl; eauto).
  revert Hn. generalize (PInt 0) as balance.
  induction (chain_transactions (chain self)) as [|tx l IH]; intros balance Hn.
  { by apply elem_of_nil in Hin. }
  cbn [balance_transactions].
  destruct (balance_transaction address balance tx) as [balance'|e] eqn:Hb;
    [|simpl; eauto].
  simpl. apply elem_of_cons in Hin as [->|Hin].
  - destruct (balance_transaction_bad_amount address balance tx Ht Ha) as [e He].
    congruence.
  - apply IH; [done|]. by eapply balance_transaction_numeric.
Qed.

Lemma sends_sender (address : string) (transaction : Transaction) :
  sends address transaction =
  match sender transaction with
  | Some s => String.eqb s address
  | None => false
  end.
Proof. unfold sends, sender. by destruct (dict_get transaction "from"). Qed.

Lemma receives_receiver (address : string) (transaction : Transaction) :
  receives address transaction =
  match receiver transaction with
  | Some s => String.eqb s address
  | None => false
  end.
Proof. unfold receives, receiver. by destruct (dict_get transaction "to"). Qed.

Lemma sum_indicator (x : string) (n : Z) (l : list string) :
  NoDup l → x ∈ l →
  foldr Z.add 0 (map (λ a, if String.eqb x a then n else 0) l) = n.
Proof.
  induction 1 as [|a l Hnin Hnd IH]; intros Hin.
  { by apply elem_of_nil in Hin. }
  cbn [map foldr]. destruct (String.eqb_spec x a) as [->|Hne].
  - assert (foldr Z.add 0 (map (λ a0, if String.eqb a a0 then n else 0) l) = 0)
      as ->; [|lia].
    clear IH Hnd Hin. induction l as [|b l IH]; [done|]. cbn [map foldr].
    destruct (String.eqb_spec a b) as [->|_].
    + destruct Hnin. by left.
    + rewrite IH; [done|]. intros Hin. apply Hnin. by right.
  - apply elem_of_cons in Hin as [->|Hin]; [done|]. rewrite IH by done. lia.
Qed.

Lemma sum_add (f g : string → Z) (l : list string) :
  foldr Z.add 0 (map (λ a, f a + g a) l) =
  foldr Z.add 0 (map f l) + foldr Z.add 0 (map g l).
Proof. induction l as [|a l IH]; [done|]. cbn [map foldr]. lia. Qed.

Lemma sum_sub (f g : string → Z) (l : list string) :
  foldr Z.add 0 (map (λ a, f a - g a) l) =
  foldr Z.add 0 (map f l) - foldr Z.add 0 (map g l).
Proof. induction l as [|a l IH]; [done|]. cbn [map foldr]. lia. Qed.

Lemma sum_zero (l : list string) :
  foldr Z.add 0 (map (λ _, 0) l) = 0.
Proof. induction l as [|a l IH]; [done|]. cbn [map foldr]. lia. Qed.

(** X12: money is neither made nor lost: when every transaction of the chain
    has an integer amount and either names no sender and no receiver, or
    names both among the listed addresses, the balances of the listed
    addresses are integers that sum to zero. *)
Theorem balances_sum_to_zero (addresses : list string)
    (self : QuantumBlockchain) :
  NoDup addresses →
  (∀ tx, tx ∈ chain_transactions (chain self) →
     is_Some (int_amount tx) ∧
     ((sender tx = None ∧ receiver tx = None) ∨
      (∃ s r, sender tx = Some s ∧ receiver tx = Some r ∧
              s ∈ addresses ∧ r ∈ addresses))) →
  ∃ balance : string → Z,
    (∀ address,
       get_balance address self = Some (Ok (PInt (balance address)), self)) ∧
    foldr Z.add 0 (map balance addresses) = 0.
Proof.
  intros Hnd Hall. exists (λ a, net_balance a (chain self)). split.
  - intros a. apply get_balance_int. intros tx Htx _. by apply Hall.
  - unfold net_balance. fold (chain_transactions (chain self)).
    induction (chain_transactions (chain self)) as [|tx l IH]; cbn [map foldr].
    { apply sum_zero. }
    rewrite sum_add, IH by (intros tx' Htx'; apply Hall; by right).
    destruct (Hall tx) as [_ Hsr]; [by left|].
    unfold net_transaction. cbv zeta. rewrite sum_sub.
    assert (∀ a, (if receives a tx then default 0 (int_amount tx) else 0) =
                 match receiver tx with
                 | Some r => if String.eqb r a then default 0 (int_amount tx) else 0
                 | None => 0
                 end) as Hr.
    { intros a. rewrite receives_receiver. by destruct (receiver tx). }
    assert (∀ a, (if sends a tx then default 0 (int_amount tx) else 0) =
                 match sender tx with
                 | Some s => if String.eqb s a then default 0 (int_amount tx) else 0
                 | None => 0
                 end) as Hs.
    { intros a. rewrite sends_sender. by destruct (sender tx). }
    rewrite (map_ext _ _ Hr), (map_ext _ _ Hs).
    destruct Hsr as [[-> ->]|(s & r & -> & -> & Hs' & Hr')].
    + rewrite sum_zero. lia.
    + rewrite !sum_indicator by done. lia.
Qed.

Lemma net_transaction_reward (miner_address : string) (reward : Z) :
  miner_address ≠ "system"%string →
  net_transaction miner_address (reward_transaction miner_address reward) =
  reward.
Proof.
  intros Hsys. unfold net_transaction, sends, receives.
  change (dict_get (reward_transaction miner_address reward) "from")
    with (PStr "system").
  change (dict_get (reward_transaction miner_address reward) "to")
    with (PStr miner_address).
  change (int_amount (reward_transaction miner_address reward))
    with (Some reward).
  cbv zeta. cbn [py_eq_str from_option]. unfold id. rewrite String.eqb_refl.
  destruct (String.eqb_spec "system" miner_address) as [Heq|_]; [|lia].
  by destruct Hsys.
Qed.

(** X13: the reward of a mined block is not in that block but in the pool;
    the block mined next holds it, and it is then that the balance of a
    miner other than "system" grows by the reward. *)
Theorem reward_enters_next_block (fuel fuel' : nat)
    (miner_address miner_address' : string) (now now' : float)
    (self self1 self2 : QuantumBlockchain) (block1 block2 : Block) :
  mine_pending_transactions fuel miner_address now self =
    Some (Ok block1, self1) →
  mine_pending_transactions fuel' miner_address' now' self1 =
    Some (Ok block2, self2) →
  transactions block1 = pending_transactions self ∧
  transactions block2 = [reward_transaction miner_address (mining_reward self)] ∧
  (miner_address ≠ "system"%string →
   ∀ balance,
     get_balance miner_address self1 = Some (Ok (PInt balance), self1) →
     get_balance miner_address self2 =
       Some (Ok (PInt (balance + mining_reward self)), self2)).
Proof.
  intros Hm1 Hm2.
  assert (pending_transactions self1 =
            [reward_transaction miner_address (mining_reward self)] ∧
          transactions block1 = pending_transactions self) as [Hpool Ht1].
  { rewrite mine_pending_transactions_eq in Hm1.
    destruct (last (chain self)); [|done].
    destruct (mine_block _ _ _) as [nb|] eqn:Hm; [|done].
    injection Hm1 as <- <-.
    destruct (mine_block_inv _ _ _ _ Hm) as (_ & (_ & _ & Ht & _) & _).
    done. }
  assert (transactions block2 = pending_transactions self1) as Ht2.
  { rewrite mine_pending_transactions_eq in Hm2.
    destruct (last (chain self1)); [|done].
    destruct (mine_block _ _ _) as [nb|] eqn:Hm; [|done].
    injection Hm2 as <- _.
    destruct (mine_block_inv _ _ _ _ Hm) as (_ & (_ & _ & Ht & _) & _).
    done. }
  split; [done|]. split; [congruence|].
  intros Hsys balance Hb.
  rewrite (get_balance_mined _ _ _ _ _ _ _ Hm2).
  rewrite get_balance_eq in Hb. injection Hb as ->. rewrite Hpool.
  change (Some (balance_transactions miner_address (PInt balance)
                  [reward_transaction miner_address (mining_reward self)],
                self2) = Some (Ok (PInt (balance + mining_reward self)), self2)).
  cbn [balance_transactions].
  rewrite balance_transaction_int.
  2: { intros _. exists (mining_reward self). reflexivity. }
  by rewrite net_transaction_reward.
Qed.

Lemma run_calls_add_transaction (fuel : nat) (tx : Transaction)
    (cs : list call) (self : QuantumBlockchain) :
  run_calls fuel (Call_add_transaction tx :: cs) self =
  run_calls fuel cs
    (if has_required_keys tx
     then set_pending_transactions (pending_transactions self ++ [tx]) self
     else self).
Proof.
  cbn [run_calls]. unfold run, mbind, M_bind.
  destruct (has_required_keys tx) eqn:Hk.
  - by rewrite add_transaction_ok by (by apply has_required_keys_spec).
  - rewrite add_transaction_raise; [done|].
    destruct (missing_field_dec tx) as [|Hn]; [done|].
    apply has_required_keys_spec in Hn. congruence.
Qed.

Lemma run_calls_add_transactions (fuel : nat) (txs : list Transaction)
    (rest : list call) (self : QuantumBlockchain) :
  run_calls fuel (map Call_add_transaction txs ++ rest) self =
  run_calls fuel rest
    (set_pending_transactions
       (pending_transactions self ++ List.filter has_required_keys txs) self).
Proof.
  revert self. induction txs as [|tx txs IH]; intros self.
  - simpl. rewrite app_nil_r. by destruct self.
  - cbn [map app List.filter]. rewrite run_calls_add_transaction, IH.
    destruct (has_required_keys tx); [|done].
    simpl. by rewrite <- app_assoc.
Qed.

(** X14: a run of [add_transaction] calls followed by
    [mine_pending_transactions] puts into the new block the pool as it was,
    then the submitted dictionaries that have the three keys, in the order
    of submission; the ones without them are dropped and nothing else is. *)
Theorem add_transactions_then_mine (fuel : nat) (txs : list Transaction)
    (miner_address : string) (now : float) (self : QuantumBlockchain)
    (latest new_block : Block) :
  last (chain self) = Some latest →
  mine_block fuel (difficulty self)
    (Block_init (Z.of_nat (length (chain self))) now
       (pending_transactions self ++ List.filter has_required_keys txs)
       (hash latest) 0) = Some new_block →
  run_calls fuel
    (map Call_add_transaction txs ++
       [Call_mine_pending_transactions miner_address now]) self =
    Some (mkQuantumBlockchain (chain self ++ [new_block]) (difficulty self)
            [reward_transaction miner_address (mining_reward self)]
            (mining_reward self)) ∧
  transactions new_block =
    pending_transactions self ++ List.filter has_required_keys txs.
Proof.
  intros Hl Hm. rewrite run_calls_add_transactions.
  cbn [run_calls]. unfold run, mbind, M_bind.
  rewrite mine_pending_transactions_eq. simpl. rewrite Hl, Hm. simpl.
  split; [done|].
  destruct (mine_block_inv _ _ _ _ Hm) as (_ & (_ & _ & Ht & _) & _). done.
Qed.

(** ** Further properties: validation and the hashed text *)

(** X15: in a chain that validates, changing the stored hash of any block
    that has a successor, the genesis block included, makes
    [is_chain_valid] return false: the successor no longer names it. *)
Theorem hash_change_breaks_link (self : QuantumBlockchain) (i : nat)
    (b b' : Block) :
  is_chain_valid self = Some (Ok true, self) →
  chain self !! i = Some b →
  (S i < length (chain self))%nat →
  hash b' ≠ hash b →
  let self' := set_chain (<[i := b']> (chain self)) self in
  is_chain_valid self' = Some (Ok false, self').
Proof.
  intros Hvalid Hb Hlen Hne self'.
  destruct (proj1 (is_chain_valid_true_iff self) Hvalid (S i))
    as (cur & prev & Hcur & Hprev & _ & Hlink & _); [lia|].
  replace (S i - 1)%nat with i in Hprev by lia.
  assert (prev = b) as -> by congruence.
  destruct (is_chain_valid_returns self') as ([|] & Hv); [|done]. exfalso.
  destruct (proj1 (is_chain_valid_true_iff self') Hv (S i))
    as (cur' & prev' & Hcur' & Hprev' & _ & Hlink' & _).
  { subst self'. simpl. rewrite length_insert. lia. }
  subst self'. cbn [chain set_chain] in Hcur', Hprev'.
  replace (S i - 1)%nat with i in Hprev' by lia.
  rewrite list_lookup_insert_ne in Hcur' by lia.
  rewrite list_lookup_insert_eq in Hprev' by lia.
  congruence.
Qed.

(** X16: validation keeps no record of how long the chain was or how hard it
    was mined: a chain that validates still validates after its last
    blocks are dropped and after the difficulty is lowered. *)
Theorem truncated_chain_still_valid (self : QuantumBlockchain) (n : nat)
    (d : Z) :
  is_chain_valid self = Some (Ok true, self) →
  d ≤ difficulty self →
  let self' :=
    mkQuantumBlockchain (take n (chain self)) d (pending_transactions self)
      (mining_reward self) in
  is_chain_valid self' = Some (Ok true, self').
Proof.
  intros Hvalid Hd self'. apply is_chain_valid_true_iff.
  subst self'. simpl. intros i Hi. rewrite length_take in Hi.
  destruct (proj1 (is_chain_valid_true_iff self) Hvalid i)
    as (cur & prev & Hcur & Hprev & Hh & Hlink & Hz); [lia|].
  exists cur, prev. rewrite !lookup_take_lt by lia.
  repeat split; try done. lia.
Qed.

(** X17: the text [calculate_hash] digests determines the index, the nonce
    and the previous hash of the block, so two blocks that differ in one of
    them can only share a hash by a collision of the digest; and the
    rounds of one mining search all digest different texts. *)
Theorem block_text_covers_fields (b b' : Block) :
  (json_dumps (block_data b) = json_dumps (block_data b') →
   index b = index b' ∧ nonce b = nonce b' ∧
   previous_hash b = previous_hash b') ∧
  (digest_separates b b' →
   index b ≠ index b' ∨ nonce b ≠ nonce b' ∨
     previous_hash b ≠ previous_hash b' →
   calculate_hash b ≠ calculate_hash b') ∧
  (∀ j k : nat, j ≠ k →
     json_dumps (block_data (Nat.iter j mine_step b)) ≠
     json_dumps (block_data (Nat.iter k mine_step b))).
Proof.
  split; [apply block_string_inj|]. split.
  - intros Hsep Hne Heq.
    destruct (block_string_inj _ _ (Hsep Heq)) as (H1 & H2 & H3). tauto.
  - intros j k Hjk Heq.
    destruct (block_string_inj _ _ Heq) as (_ & Hn & _).
    rewrite !nonce_iter_mine_step in Hn. lia.
Qed.

End Properties.

(** * The model on concrete ledgers *)

Lemma example_hexdigest_length (s : string) :
  String.length (example_hexdigest s) = 64%nat.
Proof.
  unfold example_hexdigest.
  assert (∀ n v acc, String.length (hex_digits n v acc) = (n + String.length acc)%nat)
    as Hlen.
  { induction n as [|n IH]; intros v acc; simpl; [done|]. rewrite IH. simpl. lia. }
  by rewrite Hlen.
Qed.

Lemma example_ledger0_init :
  @QuantumBlockchain_init example_primitives 400 1 1700000000 = Some example_ledger0.
Proof. vm_compute. reflexivity. Qed.

Lemma example_ledger0_reachable : @reachable example_primitives example_ledger0.
Proof. eapply reachable_init, example_ledger0_init. Qed.

Lemma example_ledger1_reachable : @reachable example_primitives example_ledger1.
Proof.
  apply (reachable_call 400 (Call_mine_pending_transactions "miner1" 1700000060)
           example_ledger0_pool (Ok (RBlock example_block1))).
  - apply (reachable_call 0 (Call_add_transaction (transfer "alice" "bob" (PInt 50)))
             example_ledger0 (Ok RNone)); [apply example_ledger0_reachable|].
    vm_compute. reflexivity.
  - vm_compute. reflexivity.
Qed.

Lemma float_ledger1_reachable : @reachable example_primitives float_ledger1.
Proof.
  apply (reachable_call 400 (Call_mine_pending_transactions "miner1" 1700000060)
           (mkQuantumBlockchain [example_genesis] 1
              [transfer "treasury" "carol" (PFloat 1)] 100)
           (Ok (RBlock float_block1))).
  - apply (reachable_call 0
             (Call_add_transaction (transfer "treasury" "carol" (PFloat 1)))
             example_ledger0 (Ok RNone)); [apply example_ledger0_reachable|].
    vm_compute. reflexivity.
  - vm_compute. reflexivity.
Qed.

Lemma float_ledger2_reachable : @reachable example_primitives float_ledger2.
Proof.
  apply (reachable_call 400 (Call_mine_pending_transactions "miner1" 1700000120)
           float_ledger1_pool (Ok (RBlock float_block2))).
  - apply (reachable_call 0
             (Call_add_transaction (transfer "carol" "carol" (PFloat 1e17)))
             float_ledger1 (Ok RNone)); [apply float_ledger1_reachable|].
    vm_compute. reflexivity.
  - vm_compute. reflexivity.
Qed.

Lemma memo_ledger_reachable : @reachable example_primitives memo_ledger.
Proof.
  apply (reachable_call 400 (Call_mine_pending_transactions "miner1" 1700000060)
           (mkQuantumBlockchain [example_genesis] 1
              [<["memo" := PTuple [PStr "rent"; PInt 3]]>
                 (transfer "alice" "bob" (PInt 50))] 100)
           (Ok (RBlock memo_block1))).
  - apply (reachable_call 0
             (Call_add_transaction
                (<["memo" := PTuple [PStr "rent"; PInt 3]]>
                   (transfer "alice" "bob" (PInt 50))))
             example_ledger0 (Ok RNone)); [apply example_ledger0_reachable|].
    vm_compute. reflexivity.
  - vm_compute. reflexivity.
Qed.

(** ** The theorems at these ledgers *)

(** C1 at the ledger reached by one [add_transaction] and one
    [mine_pending_transactions]. *)
Lemma chain_append_only_linked_witness :
  @reachable example_primitives example_ledger1 ∧
  (∀ i current_block previous_block,
     (0 < i)%nat →
     chain example_ledger1 !! i = Some current_block →
     chain example_ledger1 !! (i - 1)%nat = Some previous_block →
     previous_hash current_block = hash previous_block ∧
     index current_block = Z.of_nat i) ∧
  (∀ self', @reaches example_primitives example_ledger1 self' →
            chain example_ledger1 `prefix_of` chain self').
Proof.
  split; [exact example_ledger1_reachable|].
  exact (chain_append_only_linked example_ledger1 example_ledger1_reachable).
Defined.

(** C3 at the ledger holding alice's payment in its pool. *)
Lemma mine_pending_transactions_spec_witness :
  last (chain example_ledger0_pool) = Some example_genesis ∧
  ∃ self',
    @mine_pending_transactions example_primitives 400 "miner1" 1700000060
      example_ledger0_pool = Some (Ok example_block1, self') ∧
    chain self' = [example_genesis; example_block1] ∧
    index example_block1 = 1 ∧
    previous_hash example_block1 = hash example_genesis ∧
    transactions example_block1 = pending_transactions example_ledger0_pool ∧
    pending_transactions self' = [reward_transaction "miner1" 100].
Proof.
  split; [reflexivity|].
  destruct (@mine_pending_transactions_spec example_primitives 400 "miner1"
              1700000060 example_ledger0_pool example_genesis eq_refl)
    as [_ Hmined].
  destruct (Hmined example_block1) as (self' & Hcall & Hchain & Hi & Hp & Ht & Hpool & _).
  { vm_compute. reflexivity. }
  exists self'. exact (conj Hcall (conj Hchain (conj Hi (conj Hp (conj Ht Hpool))))).
Defined.

(** C4 on the block that call builds: seven rounds find a hash with a
    leading zero. *)
Lemma mine_block_correct_witness :
  let b := @Block_init example_primitives 1 1700000060
             [transfer "alice" "bob" (PInt 50)] (hash example_genesis) 0 in
  @hash_current example_primitives b ∧
  @mine_block example_primitives 400 1 b = Some example_block1 ∧
  1 ≤ Z.of_nat (leading_zeros (hash example_block1)) ∧
  hash example_block1 = @calculate_hash example_primitives example_block1 ∧
  same_content b example_block1 ∧
  nonce example_block1 = 7.
Proof.
  intros b.
  assert (@mine_block example_primitives 400 1 b = Some example_block1) as Hm.
  { vm_compute. reflexivity. }
  destruct (@mine_block_correct example_primitives 400 1 b example_block1
              (Block_init_hash_current _ _ _ _ _) Hm) as (Hz & Hc & Hs & _).
  exact (conj (Block_init_hash_current _ _ _ _ _)
           (conj Hm (conj Hz (conj Hc (conj Hs eq_refl))))).
Defined.

(** C7 on alice's payment. *)
Lemma add_transaction_accepts_keys_witness :
  add_transaction (transfer "alice" "bob" (PInt 50)) example_ledger0 =
    Some (Ok tt, example_ledger0_pool) ∧
  is_Some (transfer "alice" "bob" (PInt 50) !! "from") ∧
  is_Some (transfer "alice" "bob" (PInt 50) !! "to") ∧
  is_Some (transfer "alice" "bob" (PInt 50) !! "amount").
Proof.
  assert (add_transaction (transfer "alice" "bob" (PInt 50)) example_ledger0 =
            Some (Ok tt, example_ledger0_pool)) as Hadd.
  { vm_compute. reflexivity. }
  destruct (add_transaction_accepts_keys _ _ _ Hadd) as (Hf & Ht & Ha & _).
  exact (conj Hadd (conj Hf (conj Ht Ha))).
Defined.

(** C8 on the mined block with alice's amount raised from 50 to 5000. *)
Lemma tamper_detected_witness :
  @is_chain_valid example_primitives example_ledger1 = Some (Ok true, example_ledger1) ∧
  chain example_ledger1 !! 1%nat = Some example_block1 ∧
  hash example_block1_tampered = hash example_block1 ∧
  @calculate_hash example_primitives example_block1_tampered ≠
    @calculate_hash example_primitives example_block1 ∧
  @is_chain_valid example_primitives
    (mkQuantumBlockchain [example_genesis; example_block1_tampered] 1
       [reward_transaction "miner1" 100] 100) =
  Some (Ok false,
        mkQuantumBlockchain [example_genesis; example_block1_tampered] 1
          [reward_transaction "miner1" 100] 100).
Proof.
  assert (@is_chain_valid example_primitives example_ledger1 =
            Some (Ok true, example_ledger1)) as Hvalid.
  { vm_compute. reflexivity. }
  assert (@calculate_hash example_primitives example_block1_tampered ≠
            @calculate_hash example_primitives example_block1) as Hne.
  { vm_compute. discriminate. }
  exact (conj Hvalid (conj eq_refl (conj eq_refl (conj Hne
           (@tamper_detected example_primitives example_ledger1 1 example_block1
              example_block1_tampered Hvalid (Nat.lt_0_succ 0) eq_refl
              (or_intror (or_introl (conj eq_refl Hne)))))))).
Defined.

(** C9 with the 64-digit digest of the example: a difficulty of 65 is
    never met. *)
Lemma mine_block_terminates_iff_witness :
  (∀ s, String.length (example_hexdigest s) = 64%nat) ∧
  @hash_current example_primitives example_block1 ∧
  ∀ fuel, @mine_block example_primitives fuel 65 example_block1 = None.
Proof.
  assert (@hash_current example_primitives example_block1) as Hc.
  { vm_compute. reflexivity. }
  split; [exact example_hexdigest_length|]. split; [exact Hc|].
  apply (proj2 (proj2 (@mine_block_terminates_iff example_primitives 65
                          example_block1)));
    [exact example_hexdigest_length | exact Hc | lia].
Defined.

(** ** Where the specification says more than the code does *)

(** C5: carol holds 1.0; a block in which she pays herself 1e17 leaves her
    with 0.0, since 1.0 - 1e17 rounds to -1e17. *)
Lemma get_balance_self_transfer_residue :
  @reachable example_primitives float_ledger1 ∧
  @run example_primitives 0
    (Call_add_transaction (transfer "carol" "carol" (PFloat 1e17))) float_ledger1
    = Some (Ok RNone, float_ledger1_pool) ∧
  @run example_primitives 400
    (Call_mine_pending_transactions "miner1" 1700000120) float_ledger1_pool
    = Some (Ok (RBlock float_block2), float_ledger2) ∧
  get_balance "carol" float_ledger1 = Some (Ok (PFloat 1), float_ledger1) ∧
  get_balance "carol" float_ledger2 = Some (Ok (PFloat 0), float_ledger2) ∧
  PFloat 0 ≠ PFloat 1.
Proof.
  split; [exact float_ledger1_reachable|].
  repeat split; try (vm_compute; reflexivity).
  intros Heq. discriminate Heq.
Qed.

(** C7: a dictionary whose from and to are empty strings and whose amount
    is the string abc is accepted into the pool. *)
Lemma add_transaction_accepts_hollow :
  add_transaction hollow_transaction example_ledger0 =
    Some (Ok tt, mkQuantumBlockchain [example_genesis] 1 [hollow_transaction] 100) ∧
  hollow_transaction !! "from" = Some (PStr EmptyString) ∧
  hollow_transaction !! "to" = Some (PStr EmptyString) ∧
  hollow_transaction !! "amount" = Some (PStr "abc") ∧
  as_number (PStr "abc") = None.
Proof. repeat split; vm_compute; reflexivity. Qed.

(** C8: in a valid chain, a tuple inside a mined transaction is replaced by
    the list of the same elements; the chain still validates. *)
Lemma tamper_tuple_as_list_undetected :
  @reachable example_primitives memo_ledger ∧
  @is_chain_valid example_primitives memo_ledger = Some (Ok true, memo_ledger) ∧
  chain memo_ledger !! 1%nat = Some memo_block1 ∧
  transactions memo_block1_tampered ≠ transactions memo_block1 ∧
  @is_chain_valid example_primitives
    (set_chain (<[1%nat := memo_block1_tampered]> (chain memo_ledger)) memo_ledger) =
  Some (Ok true,
        set_chain (<[1%nat := memo_block1_tampered]> (chain memo_ledger)) memo_ledger).
Proof.
  split; [exact memo_ledger_reachable|].
  repeat split; try (vm_compute; reflexivity).
  intros Heq.
  apply (f_equal (λ l : list Transaction, l !! 0%nat ≫= (.!! "memo"))) in Heq.
  vm_compute in Heq. discriminate Heq.
Qed.

(** C9: with 64-character digests, mining at difficulty 65 never returns. *)
Lemma mine_block_may_not_return :
  ¬ (∀ (primitives : Primitives) (b : Block) (d : Z),
       (∀ s, String.length (sha3_256_hexdigest s) = 64%nat) →
       hash_current b → 0 ≤ d →
       ∃ fuel b', mine_block fuel d b = Some b').
Proof.
  intros Hclaim.
  set (b := @Block_init example_primitives 1 1700000060 [] "0" 0).
  assert (@hash_current example_primitives b) as Hb
    by apply Block_init_hash_current.
  destruct (Hclaim example_primitives b 65 example_hexdigest_length Hb
              ltac:(lia)) as (fuel & b' & Hm).
  pose proof (@mine_block_target_too_long example_primitives fuel 65 b
                example_hexdigest_length Hb ltac:(lia)) as Hnone.
  congruence.
Qed.

(** ** The further properties at these ledgers *)

(** X1 on the example ledgers. *)
Lemma mine_block_first_nonce_witness :
  let b := @Block_init example_primitives 1 1700000060
             [transfer "alice" "bob" (PInt 50)] (hash example_genesis) 0 in
  @mine_block example_primitives 400 1 b = Some example_block1 ∧
  ∃ k : nat,
    nonce example_block1 = nonce b + Z.of_nat k ∧
    example_block1 = Nat.iter k (@mine_step example_primitives) b ∧
    1 ≤ Z.of_nat (leading_zeros (hash example_block1)) ∧
    ∀ j, (j < k)%nat →
         ¬ 1 ≤ Z.of_nat (leading_zeros
                           (hash (Nat.iter j (@mine_step example_primitives) b))).
Proof.
  intros b.
  assert (@mine_block example_primitives 400 1 b = Some example_block1) as Hm.
  { vm_compute. reflexivity. }
  exact (conj Hm (@mine_block_first_nonce example_primitives 400 1 b _ Hm)).
Defined.

(** X2 on the example ledgers. *)
Lemma mine_block_again_witness :
  let b := @Block_init example_primitives 1 1700000060
             [transfer "alice" "bob" (PInt 50)] (hash example_genesis) 0 in
  @mine_block example_primitives 400 1 b = Some example_block1 ∧ 0 ≤ 1 ∧
  @mine_block example_primitives 0 0 example_block1 = Some example_block1.
Proof.
  intros b.
  assert (@mine_block example_primitives 400 1 b = Some example_block1) as Hm.
  { vm_compute. reflexivity. }
  assert (0 ≤ 1) as Hd by lia.
  exact (conj Hm (conj Hd
           (@mine_block_again example_primitives 400 0 1 0 b _ Hm Hd))).
Defined.

Lemma example_ledger2_reachable : @reachable example_primitives example_ledger2.
Proof.
  apply (reachable_call 400 (Call_mine_pending_transactions "miner1" 1700000120)
           example_ledger1 (Ok (RBlock example_block2)));
    [apply example_ledger1_reachable|].
  vm_compute. reflexivity.
Qed.

Lemma example_ledger1_mined :
  @mine_pending_transactions example_primitives 400 "miner1" 1700000060
    example_ledger0_pool = Some (Ok example_block1, example_ledger1).
Proof. vm_compute. reflexivity. Qed.

Lemma example_ledger2_mined :
  @mine_pending_transactions example_primitives 400 "miner1" 1700000120
    example_ledger1 = Some (Ok example_block2, example_ledger2).
Proof. vm_compute. reflexivity. Qed.

Lemma example_ledger1_valid :
  @is_chain_valid example_primitives example_ledger1 =
  Some (Ok true, example_ledger1).
Proof. vm_compute. reflexivity. Qed.

Lemma example_ledger1_transactions :
  chain_transactions (chain example_ledger1) =
  [genesis_transaction; transfer "alice" "bob" (PInt 50)].
Proof. reflexivity. Qed.

(** X3 on the example ledgers. *)
Lemma reachable_chain_mined_and_valid_witness :
  @reachable example_primitives example_ledger1 ∧
  @is_chain_valid example_primitives example_ledger1 =
    Some (Ok true, example_ledger1) ∧
  ∀ i b, chain example_ledger1 !! i = Some b →
         hash b = @calculate_hash example_primitives b ∧
         difficulty example_ledger1 ≤ Z.of_nat (leading_zeros (hash b)).
Proof.
  exact (conj example_ledger1_reachable
           (@reachable_chain_mined_and_valid example_primitives example_ledger1
              example_ledger1_reachable)).
Defined.

(** X5 on the example ledgers. *)
Lemma reachable_transactions_have_keys_witness :
  @reachable example_primitives example_ledger1 ∧
  (∀ tx, tx ∈ pending_transactions example_ledger1 →
         is_Some (tx !! "from") ∧ is_Some (tx !! "to") ∧
         is_Some (tx !! "amount")) ∧
  (∀ i b tx, (0 < i)%nat → chain example_ledger1 !! i = Some b →
             tx ∈ transactions b →
             is_Some (tx !! "from") ∧ is_Some (tx !! "to") ∧
             is_Some (tx !! "amount")).
Proof.
  exact (conj example_ledger1_reachable
           (@reachable_transactions_have_keys example_primitives example_ledger1
              example_ledger1_reachable)).
Defined.

(** X6 on the example ledgers. *)
Lemma nonpositive_difficulty_never_searches_witness :
  0 ≤ 0 ∧
  ∃ self0,
    @QuantumBlockchain_init example_primitives 0 0 1700000000 = Some self0 ∧
    ∀ self, @reaches example_primitives self0 self →
      ∀ miner_address now',
      ∃ new_block self',
        @mine_pending_transactions example_primitives 0 miner_address now' self =
          Some (Ok new_block, self') ∧
        nonce new_block = 0.
Proof.
  assert (0 ≤ 0) as Hd by lia.
  exact (conj Hd (@nonpositive_difficulty_never_searches example_primitives 0
                    1700000000 Hd)).
Defined.

(** X7 on the example ledgers. *)
Lemma difficulty_above_digest_length_hangs_witness :
  (∀ s, String.length (example_hexdigest s) = 64%nat) ∧ 64 < 65 ∧
  (∀ fuel now, @QuantumBlockchain_init example_primitives fuel 65 now = None) ∧
  (∀ self fuel miner_address now,
     difficulty self = 65 → chain self ≠ [] →
     @mine_pending_transactions example_primitives fuel miner_address now self
       = None).
Proof.
  assert (64 < 65) as Hd by lia.
  exact (conj example_hexdigest_length (conj Hd
           (@difficulty_above_digest_length_hangs example_primitives 65
              example_hexdigest_length Hd))).
Defined.

(** X8 on the example ledgers. *)
Lemma mine_pending_transactions_balance_witness :
  @mine_pending_transactions example_primitives 400 "miner1" 1700000060
    example_ledger0_pool = Some (Ok example_block1, example_ledger1) ∧
  get_balance "bob" example_ledger0_pool =
    Some (Ok (PInt 0), example_ledger0_pool) ∧
  get_balance "bob" example_ledger1 = Some (Ok (PInt 50), example_ledger1).
Proof.
  assert (get_balance "bob" example_ledger0_pool =
            Some (Ok (PInt 0), example_ledger0_pool)) as Hb
    by (vm_compute; reflexivity).
  exact (conj example_ledger1_mined (conj Hb
           (@mine_pending_transactions_balance example_primitives 400 "miner1"
              "bob" 1700000060 example_ledger0_pool example_ledger1
              example_block1 (Ok (PInt 0)) example_ledger1_mined Hb))).
Defined.

Lemma example_ledger1_strangers (address : string) :
  address ≠ "alice"%string → address ≠ "bob"%string →
  ∀ tx, tx ∈ chain_transactions (chain example_ledger1) →
        dict_get tx "from" ≠ PStr address ∧ dict_get tx "to" ≠ PStr address.
Proof.
  intros Ha Hb tx Htx. rewrite example_ledger1_transactions in Htx.
  apply elem_of_cons in Htx as [->|Htx].
  { split; discriminate. }
  apply list_elem_of_singleton in Htx as ->.
  split; intros Heq;
    [change (PStr "alice" = PStr address) in Heq
    |change (PStr "bob" = PStr address) in Heq];
    injection Heq as Heq; congruence.
Qed.

(** X9 on the example ledgers. *)
Lemma get_balance_unknown_address_witness :
  (∀ tx, tx ∈ chain_transactions (chain example_ledger1) →
         dict_get tx "from" ≠ PStr "zed" ∧ dict_get tx "to" ≠ PStr "zed") ∧
  get_balance "zed" example_ledger1 = Some (Ok (PInt 0), example_ledger1).
Proof.
  assert (∀ tx, tx ∈ chain_transactions (chain example_ledger1) →
            dict_get tx "from" ≠ PStr "zed" ∧ dict_get tx "to" ≠ PStr "zed")
    as Hall by (apply example_ledger1_strangers; discriminate).
  exact (conj Hall (get_balance_unknown_address "zed" example_ledger1 Hall)).
Defined.

Lemma example_ledger1_integer :
  ∀ tx, tx ∈ chain_transactions (chain example_ledger1) →
        is_Some (int_amount tx).
Proof.
  intros tx Htx. rewrite example_ledger1_transactions in Htx.
  apply elem_of_cons in Htx as [->|Htx]; [by exists 0|].
  apply list_elem_of_singleton in Htx as ->. by exists 50.
Qed.

(** X10 on the example ledgers. *)
Lemma get_balance_integer_ledger_witness :
  (∀ tx, tx ∈ chain_transactions (chain example_ledger1) →
         sends "alice" tx || receives "alice" tx = true →
         is_Some (int_amount tx)) ∧
  get_balance "alice" example_ledger1 = Some (Ok (PInt (0 - 50)), example_ledger1).
Proof.
  assert (∀ tx, tx ∈ chain_transactions (chain example_ledger1) →
            sends "alice" tx || receives "alice" tx = true →
            is_Some (int_amount tx)) as Hall
    by (intros tx Htx _; by apply example_ledger1_integer).
  exact (conj Hall (get_balance_integer_ledger "alice" example_ledger1 Hall)).
Defined.

(** X11 on the example ledgers. *)
Lemma get_balance_raises_on_bad_amount_witness :
  hollow_transaction ∈ chain_transactions (chain hollow_ledger) ∧
  sends EmptyString hollow_transaction || receives EmptyString hollow_transaction
    = true ∧
  as_number (amount_of hollow_transaction) = None ∧
  ∃ e, get_balance EmptyString hollow_ledger = Some (Raise e, hollow_ledger).
Proof.
  assert (hollow_transaction ∈ chain_transactions (chain hollow_ledger)) as Hin.
  { change (hollow_transaction ∈ [genesis_transaction; hollow_transaction]).
    right. left. }
  exact (conj Hin (conj eq_refl (conj eq_refl
           (get_balance_raises_on_bad_amount EmptyString hollow_ledger
              hollow_transaction Hin eq_refl eq_refl)))).
Defined.

(** X12 on the example ledgers. *)
Lemma balances_sum_to_zero_witness :
  NoDup ["alice"; "bob"]%string ∧
  (∀ tx, tx ∈ chain_transactions (chain example_ledger1) →
     is_Some (int_amount tx) ∧
     ((sender tx = None ∧ receiver tx = None) ∨
      (∃ s r, sender tx = Some s ∧ receiver tx = Some r ∧
              s ∈ ["alice"; "bob"]%string ∧ r ∈ ["alice"; "bob"]%string))) ∧
  ∃ balance : string → Z,
    (∀ address,
       get_balance address example_ledger1 =
         Some (Ok (PInt (balance address)), example_ledger1)) ∧
    foldr Z.add 0 (map balance ["alice"; "bob"]%string) = 0.
Proof.
  assert (NoDup ["alice"; "bob"]%string) as Hnd.
  { apply NoDup_cons. split; [|apply NoDup_singleton].
    intros Hin. apply list_elem_of_singleton in Hin. discriminate Hin. }
  assert (∀ tx, tx ∈ chain_transactions (chain example_ledger1) →
     is_Some (int_amount tx) ∧
     ((sender tx = None ∧ receiver tx = None) ∨
      (∃ s r, sender tx = Some s ∧ receiver tx = Some r ∧
              s ∈ ["alice"; "bob"]%string ∧ r ∈ ["alice"; "bob"]%string)))
    as Hall.
  { intros tx Htx. split; [by apply example_ledger1_integer|].
    rewrite example_ledger1_transactions in Htx.
    apply elem_of_cons in Htx as [->|Htx]; [by left|].
    apply list_elem_of_singleton in Htx as ->. right.
    exists "alice"%string, "bob"%string.
    repeat split; [left | right; left]. }
  exact (conj Hnd (conj Hall
           (balances_sum_to_zero ["alice"; "bob"]%string example_ledger1
              Hnd Hall))).
Defined.

(** X13 on the example ledgers. *)
Lemma reward_enters_next_block_witness :
  @mine_pending_transactions example_primitives 400 "miner1" 1700000060
    example_ledger0_pool = Some (Ok example_block1, example_ledger1) ∧
  @mine_pending_transactions example_primitives 400 "miner1" 1700000120
    example_ledger1 = Some (Ok example_block2, example_ledger2) ∧
  transactions example_block1 = pending_transactions example_ledger0_pool ∧
  transactions example_block2 = [reward_transaction "miner1" 100] ∧
  ("miner1"%string ≠ "system"%string →
   ∀ balance,
     get_balance "miner1" example_ledger1 =
       Some (Ok (PInt balance), example_ledger1) →
     get_balance "miner1" example_ledger2 =
       Some (Ok (PInt (balance + 100)), example_ledger2)).
Proof.
  exact (conj example_ledger1_mined (conj example_ledger2_mined
           (@reward_enters_next_block example_primitives 400 400 "miner1"
              "miner1" 1700000060 1700000120 example_ledger0_pool
              example_ledger1 example_ledger2 example_block1 example_block2
              example_ledger1_mined example_ledger2_mined))).
Defined.

(** X14 on the example ledgers. *)
Lemma add_transactions_then_mine_witness :
  last (chain example_ledger0) = Some example_genesis ∧
  @mine_block example_primitives 400 (difficulty example_ledger0)
    (@Block_init example_primitives (Z.of_nat (length (chain example_ledger0)))
       1700000060
       (pending_transactions example_ledger0 ++
          List.filter has_required_keys
            [headless_transaction; transfer "alice" "bob" (PInt 50)])
       (hash example_genesis) 0) = Some example_block1 ∧
  @run_calls example_primitives 400
    (map Call_add_transaction
       [headless_transaction; transfer "alice" "bob" (PInt 50)] ++
     [Call_mine_pending_transactions "miner1" 1700000060]) example_ledger0 =
    Some example_ledger1 ∧
  transactions example_block1 = [transfer "alice" "bob" (PInt 50)].
Proof.
  assert (@mine_block example_primitives 400 (difficulty example_ledger0)
    (@Block_init example_primitives (Z.of_nat (length (chain example_ledger0)))
       1700000060
       (pending_transactions example_ledger0 ++
          List.filter has_required_keys
            [headless_transaction; transfer "alice" "bob" (PInt 50)])
       (hash example_genesis) 0) = Some example_block1) as Hm
    by (vm_compute; reflexivity).
  exact (conj eq_refl (conj Hm
           (@add_transactions_then_mine example_primitives 400
              [headless_transaction; transfer "alice" "bob" (PInt 50)]
              "miner1" 1700000060 example_ledger0 example_genesis
              example_block1 eq_refl Hm))).
Defined.

(** X15 on the example ledgers. *)
Lemma hash_change_breaks_link_witness :
  @is_chain_valid example_primitives example_ledger1 =
    Some (Ok true, example_ledger1) ∧
  chain example_ledger1 !! 0%nat = Some example_genesis ∧
  (1 < length (chain example_ledger1))%nat ∧
  hash (set_hash "00" example_genesis) ≠ hash example_genesis ∧
  @is_chain_valid example_primitives
    (set_chain (<[0%nat := set_hash "00" example_genesis]> (chain example_ledger1))
       example_ledger1) =
  Some (Ok false,
        set_chain (<[0%nat := set_hash "00" example_genesis]> (chain example_ledger1))
          example_ledger1).
Proof.
  assert (1 < length (chain example_ledger1))%nat as Hlen by (simpl; lia).
  assert (hash (set_hash "00" example_genesis) ≠ hash example_genesis) as Hne
    by discriminate.
  exact (conj example_ledger1_valid (conj eq_refl (conj Hlen (conj Hne
           (@hash_change_breaks_link example_primitives example_ledger1 0
              example_genesis (set_hash "00" example_genesis)
              example_ledger1_valid eq_refl Hlen Hne))))).
Defined.

(** X16 on the example ledgers. *)
Lemma truncated_chain_still_valid_witness :
  @is_chain_valid example_primitives example_ledger1 =
    Some (Ok true, example_ledger1) ∧
  0 ≤ difficulty example_ledger1 ∧
  @is_chain_valid example_primitives
    (mkQuantumBlockchain (take 1 (chain example_ledger1)) 0
       (pending_transactions example_ledger1) (mining_reward example_ledger1)) =
  Some (Ok true,
        mkQuantumBlockchain (take 1 (chain example_ledger1)) 0
          (pending_transactions example_ledger1) (mining_reward example_ledger1)).
Proof.
  assert (0 ≤ difficulty example_ledger1) as Hd by (simpl; lia).
  exact (conj example_ledger1_valid (conj Hd
           (@truncated_chain_still_valid example_primitives example_ledger1 1 0
              example_ledger1_valid Hd))).
Defined.
